(** * A prefix-search index over an anime catalogue

    Shallow embedding of [localotaku_tgbot/utils/trie.py] (classes
    [TrieNode] and [AnimeTrie]) and of the part of
    [localotaku_tgbot/entites/core.py] it reads, followed by the
    properties of the index.

    Conventions.
    - A Python [str] is a list of Unicode code points ([Z], as [ord] gives
      them).
    - A Python [dict] is an association list in insertion order: a [dict]
      iterates in insertion order, and both [get_all_anime] (a stable sort
      of [values()]) and [get_suggestions] (which walks [children.items()])
      observe that order.
    - A Python [set] of integers is a [gset Z].  The order in which a
      [set] iterates is not fixed by the language; where the source
      iterates over one, the model iterates over [elements].
    - A lookup [d[k]] of a missing key raises [KeyError]; functions that can
      raise return a [result]. *)

From Stdlib Require Import ZArith String Ascii Sorted.
From stdpp Require Import gmap list.

#[local] Set Warnings "-register-all,-clear-no-such-hyp".
#[local] Open Scope Z_scope.

(** ** Strings *)

Abbreviation char := Z (only parsing).
Abbreviation str := (list Z) (only parsing).

(** The code points of an ASCII literal. *)
Fixpoint py (s : string) : str :=
  match s with
  | EmptyString => []
  | String a r => Z.of_N (N_of_ascii a) :: py r
  end.

Definition SPACE : char := 32.
Definition HYPHEN : char := 45.
Definition UNDERSCORE : char := 95.

(** ** The Unicode tables of the Python runtime

    [_normalize_text] calls into [unicodedata], [str] and [re]; their
    character tables are not part of the repository and are taken as an
    interface.  [uni_isspace] is the predicate behind both [str.strip]
    and the regular-expression class [\s], [uni_isalnum] the one behind
    [\w] (which adds the underscore).  [uni_nfd] is not used by the code;
    it is the canonical decomposition the specification speaks of.  The
    one fact assumed of the tables is that the space character is
    whitespace. *)

Class Unicodedata := {
  uni_nfkd : str → str;
  uni_nfd : str → str;
  uni_combining : char → Z;
  uni_lower : str → str;
  uni_isspace : char → bool;
  uni_isalnum : char → bool;
  uni_space_isspace : uni_isspace 32 = true
}.

Module Normalizer.
Section WithTables.
Context `{Unicodedata}.

(** [str.strip()]: whitespace removed at both ends. *)
Fixpoint lstrip (s : str) : str :=
  match s with
  | [] => []
  | c :: r => if uni_isspace c then lstrip r else s
  end.

Fixpoint rstrip (s : str) : str :=
  match s with
  | [] => []
  | c :: r => if forallb uni_isspace s then [] else c :: rstrip r
  end.

Definition strip (s : str) : str := rstrip (lstrip s).

(** The class [[^\w\s-]] removed by the first [re.sub]: a character is
    kept when it is a word character, whitespace or the hyphen. *)
Definition is_word (c : char) : bool := uni_isalnum c || (c =? UNDERSCORE).
Definition kept (c : char) : bool :=
  is_word c || uni_isspace c || (c =? HYPHEN).

Definition drop_punctuation (s : str) : str := filter (λ c, kept c = true) s.

(** [re.sub(r"\s+", " ", s)]: every maximal run of whitespace becomes
    one space.  [in_run] tells that the previous character was
    whitespace. *)
Fixpoint collapse_from (in_run : bool) (s : str) : str :=
  match s with
  | [] => []
  | c :: r =>
      if uni_isspace c
      then (if in_run then collapse_from true r
            else SPACE :: collapse_from true r)
      else c :: collapse_from false r
  end.

Definition collapse_spaces (s : str) : str := collapse_from false s.

Definition drop_combining (s : str) : str :=
  filter (λ c, uni_combining c = 0) s.

(** [AnimeTrie._normalize_text] *)
Definition _normalize_text (text : str) : str :=
  let normalized := uni_nfkd text in
  let normalized := drop_combining normalized in
  let normalized := strip (uni_lower normalized) in
  let normalized := drop_punctuation normalized in
  let normalized := collapse_spaces normalized in
  normalized.

(** The pipeline as the specification words it: canonical
    decomposition, combining marks dropped, lower case, punctuation
    dropped, whitespace collapsed, and the trim as the last step. *)
Definition normalize_spec (text : str) : str :=
  strip (collapse_spaces (drop_punctuation
    (uni_lower (drop_combining (uni_nfd text))))).

(** The same pipeline with the decomposition the code asks for
    ([NFKD]) in place of the canonical one. *)
Definition normalize_nfkd_trim_last (text : str) : str :=
  strip (collapse_spaces (drop_punctuation
    (uni_lower (drop_combining (uni_nfkd text))))).

Definition no_outer_space (s : str) : Prop :=
  match s with
  | [] => True
  | c :: _ => uni_isspace c = false ∧ ∃ d, last s = Some d ∧ uni_isspace d = false
  end.

End WithTables.
End Normalizer.
Export Normalizer.

(** ** A fragment of the tables

    Exact on ASCII and on the five further code points U+00B2 (superscript
    two), U+00E1 (a with acute), U+00F4 (o with circumflex), U+0301 and
    U+0302 (the combining acute and circumflex); every other code point is
    passed through unchanged and counts as neither whitespace nor
    alphanumeric.  Used only to run the code on concrete texts made of
    these characters. *)
Module Fragment.

Definition decompose (compat : bool) (c : char) : str :=
  if c =? 225 then [97; 769]
  else if c =? 244 then [111; 770]
  else if (c =? 178) && compat then [50]
  else [c].

Definition combining (c : char) : Z :=
  if (c =? 769) || (c =? 770) then 230 else 0.

Definition lower_char (c : char) : char :=
  if (65 <=? c) && (c <=? 90) then c + 32 else c.

Definition isspace (c : char) : bool :=
  ((9 <=? c) && (c <=? 13)) || ((28 <=? c) && (c <=? 32)).

Definition isalnum (c : char) : bool :=
  ((48 <=? c) && (c <=? 57)) || ((65 <=? c) && (c <=? 90))
  || ((97 <=? c) && (c <=? 122))
  || (c =? 178) || (c =? 225) || (c =? 244).

#[export] Instance tables : Unicodedata := {
  uni_nfkd s := mbind (decompose true) s;
  uni_nfd s := mbind (decompose false) s;
  uni_combining := combining;
  uni_lower s := lower_char <$> s;
  uni_isspace := isspace;
  uni_isalnum := isalnum;
  uni_space_isspace := eq_refl
}.

End Fragment.

(** ** Python containers *)

Inductive result (A : Type) : Type :=
  | Ok (a : A)
  | KeyError (k : Z).
Arguments Ok {A} a.
Arguments KeyError {A} k.

Module Dict.
Section Ops.
Context {A : Type}.

(** [d.get(k)] / [k in d] / [d[k]] *)
Fixpoint get (k : Z) (d : list (Z * A)) : option A :=
  match d with
  | [] => None
  | (k', v) :: r => if k' =? k then Some v else get k r
  end.

Definition mem (k : Z) (d : list (Z * A)) : bool :=
  match get k d with Some _ => true | None => false end.

(** [d[k] = v]: an existing key keeps its place, a new one goes last. *)
Fixpoint set (k : Z) (v : A) (d : list (Z * A)) : list (Z * A) :=
  match d with
  | [] => [(k, v)]
  | (k', v') :: r => if k' =? k then (k, v) :: r else (k', v') :: set k v r
  end.

(** [del d[k]] for a key that is present. *)
Fixpoint del (k : Z) (d : list (Z * A)) : list (Z * A) :=
  match d with
  | [] => []
  | (k', v') :: r => if k' =? k then r else (k', v') :: del k r
  end.

Definition keys (d : list (Z * A)) : list Z := fst <$> d.
Definition values (d : list (Z * A)) : list A := snd <$> d.
End Ops.
End Dict.

(** [sorted(xs, key=...)]: the stable sort, written as an insertion sort
    ([le a b] is the comparison of the keys of [a] and [b]). *)
Section Sorted.
Context {A : Type} (le : A → A → bool).

Fixpoint insert_sorted (x : A) (l : list A) : list A :=
  match l with
  | [] => [x]
  | y :: r => if le x y then x :: l else y :: insert_sorted x r
  end.

Definition sorted (l : list A) : list A := foldr insert_sorted [] l.
End Sorted.

(** The order of [str]: lexicographic on code points. *)
Fixpoint str_le (a b : str) : bool :=
  match a, b with
  | [], _ => true
  | _ :: _, [] => false
  | x :: a', y :: b' => (x <? y) || ((x =? y) && str_le a' b')
  end.

(** [xs[:limit]], with Python's reading of a negative bound. *)
Definition slice_to {A : Type} (limit : Z) (l : list A) : list A :=
  if 0 <=? limit then take (Z.to_nat limit) l
  else take (length l - Z.to_nat (- limit))%nat l.

(** [x or y] on an optional string: [None] and the empty string are
    false. *)
Definition py_or (x : option str) (y : str) : str :=
  match x with
  | Some (c :: s) => c :: s
  | _ => y
  end.

(** ** The catalogue records ([entites/core.py])

    Only the fields the index reads are kept; the index neither reads nor
    writes [image_url], [synopsis], [score], [episodes], [seasons],
    [films], [status], [manga_authors], [year] and [season]. *)

Module Genre.
Record t := mk { id : Z; name : str }.
End Genre.

Module AnimeStudio.
Record t := mk { id : Z; name : str }.
End AnimeStudio.

Module Anime.
Record t := mk {
  id : Z;
  title : str;
  title_english : option str;
  title_japanese : option str;
  genres : list Genre.t;
  studios : list AnimeStudio.t
}.

(** The property [display_title]. *)
Definition display_title (a : t) : str :=
  py_or (title_english a) (py_or (title_japanese a) (title a)).
End Anime.

(** ** The trie ([utils/trie.py]) *)

Inductive TrieNode : Type := mkTrieNode {
  children : list (char * TrieNode);
  is_end_of_word : bool;
  anime_ids : gset Z
}.

(** [TrieNode()] *)
Definition new_node : TrieNode := mkTrieNode [] false ∅.

Definition ids_add (anime_id : Z) (node : TrieNode) : TrieNode :=
  mkTrieNode (children node) (is_end_of_word node)
             ({[anime_id]} ∪ anime_ids node).

Definition mark_end (node : TrieNode) : TrieNode :=
  mkTrieNode (children node) true (anime_ids node).

Definition with_child (c : char) (child node : TrieNode) : TrieNode :=
  mkTrieNode (Dict.set c child (children node)) (is_end_of_word node)
             (anime_ids node).

(** The loop of [_add_to_trie], started at [node].  The source mutates
    the nodes through references; here every node on the path is rebuilt
    and stored back under its character. *)
Fixpoint add_chars (node : TrieNode) (chars : str) (anime_id : Z) : TrieNode :=
  match chars with
  | [] => ids_add anime_id (mark_end node)
  | c :: rest =>
      let child := default new_node (Dict.get c (children node)) in
      let child := ids_add anime_id child in
      with_child c (add_chars child rest anime_id) node
  end.

(** The loop of [_search_in_trie] and [get_suggestions]: follow existing
    children only. *)
Fixpoint find_node (node : TrieNode) (chars : str) : option TrieNode :=
  match chars with
  | [] => Some node
  | c :: rest =>
      match Dict.get c (children node) with
      | None => None
      | Some child => find_node child rest
      end
  end.

(** Number of nodes of a trie; bounds the iterations of the loop of
    [get_suggestions]. *)
Fixpoint node_count (node : TrieNode) : nat :=
  match node with
  | mkTrieNode ch _ _ =>
      S ((fix go (l : list (char * TrieNode)) : nat :=
            match l with
            | [] => O
            | (_, n) :: r => (node_count n + go r)%nat
            end) ch)
  end.

Record AnimeTrie := mkAnimeTrie {
  _root : TrieNode;
  _anime_by_id : list (Z * Anime.t);
  _genre_trie : TrieNode;
  _studio_trie : TrieNode
}.

(** [AnimeTrie()] *)
Definition new_index : AnimeTrie := mkAnimeTrie new_node [] new_node new_node.

Section Index.
Context `{Unicodedata}.

Definition _add_to_trie (trie_root : TrieNode) (text : str) (anime_id : Z)
  : TrieNode :=
  add_chars trie_root (_normalize_text text) anime_id.

Definition _search_in_trie (trie_root : TrieNode) (prefix : str) : gset Z :=
  match find_node trie_root (_normalize_text prefix) with
  | None => ∅
  | Some node => anime_ids node
  end.

(** The set literal [titles] of [add_anime]. *)
Definition titles_of (anime : Anime.t) : gset str :=
  {[ Anime.title anime; Anime.display_title anime;
     py_or (Anime.title_english anime) [];
     py_or (Anime.title_japanese anime) [] ]}.

(** [if title.strip()] *)
Definition nonblank (title : str) : bool :=
  match strip title with [] => false | _ => true end.

Definition add_titles (root : TrieNode) (anime : Anime.t) : TrieNode :=
  foldl (λ node title,
           if nonblank title then _add_to_trie node title (Anime.id anime)
           else node)
        root (elements (titles_of anime)).

Definition add_genres (root : TrieNode) (anime : Anime.t) : TrieNode :=
  foldl (λ node genre, _add_to_trie node (Genre.name genre) (Anime.id anime))
        root (Anime.genres anime).

Definition add_studios (root : TrieNode) (anime : Anime.t) : TrieNode :=
  foldl (λ node studio,
           _add_to_trie node (AnimeStudio.name studio) (Anime.id anime))
        root (Anime.studios anime).

Definition add_anime (self : AnimeTrie) (anime : Anime.t) : AnimeTrie :=
  if Dict.mem (Anime.id anime) (_anime_by_id self) then self
  else
    mkAnimeTrie
      (add_titles (_root self) anime)
      (Dict.set (Anime.id anime) anime (_anime_by_id self))
      (add_genres (_genre_trie self) anime)
      (add_studios (_studio_trie self) anime).

(** [[self._anime_by_id[i] for i in ids]] *)
Fixpoint materialize (table : list (Z * Anime.t)) (ids : list Z)
  : result (list Anime.t) :=
  match ids with
  | [] => Ok []
  | i :: r =>
      match Dict.get i table with
      | None => KeyError i
      | Some a =>
          match materialize table r with
          | Ok l => Ok (a :: l)
          | KeyError k => KeyError k
          end
      end
  end.

Definition sorted_ids (ids : gset Z) : list Z := sorted Z.leb (elements ids).

(** [if limit: results = results[:limit]] *)
Definition apply_limit {A : Type} (limit : option Z) (results : list A)
  : list A :=
  match limit with
  | None => results
  | Some n => if n =? 0 then results else slice_to n results
  end.

Definition limited (limit : option Z) (r : result (list Anime.t))
  : result (list Anime.t) :=
  match r with
  | Ok results => Ok (apply_limit limit results)
  | KeyError k => KeyError k
  end.

Definition search_by_title (self : AnimeTrie) (prefix : str)
    (limit : option Z) : result (list Anime.t) :=
  let anime_ids := _search_in_trie (_root self) prefix in
  limited limit (materialize (_anime_by_id self) (sorted_ids anime_ids)).

Definition search_by_genre (self : AnimeTrie) (genre_prefix : str)
  : result (list Anime.t) :=
  let anime_ids := _search_in_trie (_genre_trie self) genre_prefix in
  materialize (_anime_by_id self) (sorted_ids anime_ids).

Definition search_by_studio (self : AnimeTrie) (studio_prefix : str)
  : result (list Anime.t) :=
  let anime_ids := _search_in_trie (_studio_trie self) studio_prefix in
  materialize (_anime_by_id self) (sorted_ids anime_ids).

(** One [if field_prefix:] step of [advanced_search]: an absent or empty
    prefix leaves [result_ids] as it is. *)
Definition refine (trie_root : TrieNode) (field_prefix : option str)
    (result_ids : option (gset Z)) : option (gset Z) :=
  match field_prefix with
  | Some (c :: s) =>
      let field_ids := _search_in_trie trie_root (c :: s) in
      Some (match result_ids with
            | None => field_ids
            | Some ids => ids ∩ field_ids
            end)
  | _ => result_ids
  end.

Definition advanced_ids (self : AnimeTrie)
    (title_prefix genre_prefix studio_prefix : option str) : gset Z :=
  let result_ids := refine (_root self) title_prefix None in
  let result_ids := refine (_genre_trie self) genre_prefix result_ids in
  let result_ids := refine (_studio_trie self) studio_prefix result_ids in
  match result_ids with
  | None => list_to_set (Dict.keys (_anime_by_id self))
  | Some ids => ids
  end.

Definition advanced_search (self : AnimeTrie)
    (title_prefix genre_prefix studio_prefix : option str)
    (limit : option Z) : result (list Anime.t) :=
  let result_ids :=
    advanced_ids self title_prefix genre_prefix studio_prefix in
  limited limit (materialize (_anime_by_id self) (sorted_ids result_ids)).

Definition get_all_anime (self : AnimeTrie) : list Anime.t :=
  sorted (λ a b, str_le (uni_lower (Anime.display_title a))
                        (uni_lower (Anime.display_title b)))
         (Dict.values (_anime_by_id self)).

Definition remove_anime (self : AnimeTrie) (anime_id : Z)
  : bool * AnimeTrie :=
  if Dict.mem anime_id (_anime_by_id self)
  then (true,
        mkAnimeTrie (_root self) (Dict.del anime_id (_anime_by_id self))
                    (_genre_trie self) (_studio_trie self))
  else (false, self).

Definition clear (self : AnimeTrie) : AnimeTrie :=
  mkAnimeTrie new_node [] new_node new_node.

Definition total_anime (self : AnimeTrie) : Z :=
  Z.of_nat (length (_anime_by_id self)).

(** The inner [for anime_id in current_node.anime_ids] of
    [get_suggestions], with its [break]. *)
Fixpoint collect_titles (table : list (Z * Anime.t)) (max_suggestions : Z)
    (ids : list Z) (suggestions : gset str) : gset str :=
  match ids with
  | [] => suggestions
  | anime_id :: r =>
      match Dict.get anime_id table with
      | Some anime =>
          let suggestions := {[Anime.display_title anime]} ∪ suggestions in
          if max_suggestions <=? Z.of_nat (size suggestions) then suggestions
          else collect_titles table max_suggestions r suggestions
      | None => collect_titles table max_suggestions r suggestions
      end
  end.

(** The [while stack and len(suggestions) < max_suggestions] loop.  The
    head of [stack] is its top, so the children, appended one after the
    other in the source, arrive reversed.  Every iteration replaces a
    node by its children, so [node_count] of the start node bounds the
    number of iterations ([fuel]). *)
Fixpoint suggest_loop (fuel : nat) (table : list (Z * Anime.t))
    (max_suggestions : Z) (stack : list (TrieNode * str))
    (suggestions : gset str) : gset str :=
  match fuel with
  | O => suggestions
  | S fuel =>
      match stack with
      | [] => suggestions
      | (current_node, current_word) :: stack =>
          if Z.of_nat (size suggestions) <? max_suggestions then
            let suggestions :=
              if is_end_of_word current_node
              then collect_titles table max_suggestions
                     (elements (anime_ids current_node)) suggestions
              else suggestions in
            let pushed :=
              (λ p : char * TrieNode, (p.2, current_word ++ [p.1]))
                <$> children current_node in
            suggest_loop fuel table max_suggestions
                         (rev pushed ++ stack) suggestions
          else suggestions
      end
  end.

Definition get_suggestions (self : AnimeTrie) (prefix : str)
    (max_suggestions : Z) : list str :=
  let normalized_prefix := _normalize_text prefix in
  match find_node (_root self) normalized_prefix with
  | None => []
  | Some node =>
      sorted str_le
        (elements
           (suggest_loop (node_count node) (_anime_by_id self)
              max_suggestions [(node, normalized_prefix)] ∅))
  end.

End Index.

(** ** Two validators of the configuration ([config.py])

    The two field validators whose bodies are plain functions of the
    value; [pydantic] calls them with the value of the field and takes a
    raised [ValueError] as a validation failure. *)

Inductive validated (A : Type) : Type :=
  | Valid (a : A)
  | ValueError (message : string).
Arguments Valid {A} a.
Arguments ValueError {A} message.

Section Validators.
Context `{Unicodedata}.

(** [DatabaseConfiguration.validate_host] *)
Definition validate_host (value : str) : validated str :=
  match strip value with
  | [] => ValueError "Host cannot be empty"
  | _ :: _ => Valid (strip value)
  end.

(** [Configuration.validate_admin_ids] *)
Definition validate_admin_ids (value : list Z) : validated (list Z) :=
  if existsb (λ admin_id, admin_id <=? 0) value
  then ValueError "Admin IDs must be positive integers"
  else Valid (sorted Z.leb (elements (list_to_set value : gset Z))).

End Validators.

(** ** States of the index and what the properties speak of *)

Inductive field := TitleField | GenreField | StudioField.

Definition trie_of (f : field) (self : AnimeTrie) : TrieNode :=
  match f with
  | TitleField => _root self
  | GenreField => _genre_trie self
  | StudioField => _studio_trie self
  end.

(** Identifier set stored at the node reached by [path] (empty when the
    trie has no such node). *)
Definition ids_at (root : TrieNode) (path : str) : gset Z :=
  match find_node root path with
  | None => ∅
  | Some node => anime_ids node
  end.

(** [path] reaches a node annotated by an insertion of [key]: the nodes
    strictly below the root on the path of [key], and the root only for
    the empty key. *)
Definition covers (path key : str) : Prop :=
  match path with
  | [] => key = []
  | _ :: _ => path `prefix_of` key
  end.

(** Number of nodes still to be visited by the loop of
    [get_suggestions]. *)
Definition stack_weight (stack : list (TrieNode * str)) : nat :=
  foldr (λ p n, (node_count p.1 + n)%nat) O stack.

Section States.
Context `{Unicodedata}.

(** The keys [add_anime] inserts for a record, per field. *)
Definition indexed_keys (f : field) (anime : Anime.t) : list str :=
  match f with
  | TitleField =>
      _normalize_text <$>
        filter (λ t, nonblank t = true) (elements (titles_of anime))
  | GenreField =>
      (λ g, _normalize_text (Genre.name g)) <$> Anime.genres anime
  | StudioField =>
      (λ s, _normalize_text (AnimeStudio.name s)) <$> Anime.studios anime
  end.

(** States reachable through the public operations. *)
Inductive reachable : AnimeTrie → Prop :=
  | reachable_new : reachable new_index
  | reachable_add self anime :
      reachable self → reachable (add_anime self anime)
  | reachable_remove self anime_id :
      reachable self → reachable (remove_anime self anime_id).2
  | reachable_clear self : reachable self → reachable (clear self).

(** States reachable without a removal. *)
Inductive built : AnimeTrie → Prop :=
  | built_new : built new_index
  | built_add self anime : built self → built (add_anime self anime)
  | built_clear self : built self → built (clear self).

(** The record table maps every key to a record carrying that key, once. *)
Definition table_ok (table : list (Z * Anime.t)) : Prop :=
  NoDup (Dict.keys table) ∧
  ∀ i a, Dict.get i table = Some a → Anime.id a = i.

(** Below the root, a child never holds an identifier its parent lacks. *)
Definition downward (root : TrieNode) : Prop :=
  ∀ path c, path ≠ [] → ids_at root (path ++ [c]) ⊆ ids_at root path.

(** The path-set property the code maintains: [covers] in place of
    the plain prefix. *)
Definition path_sets (self : AnimeTrie) : Prop :=
  ∀ f path i,
    i ∈ ids_at (trie_of f self) path ↔
    ∃ a k, Dict.get i (_anime_by_id self) = Some a ∧
           k ∈ indexed_keys f a ∧ covers path k.

(** The path-set property as the specification states it (root
    included, every path a plain prefix). *)
Definition path_set_as_specified (self : AnimeTrie) : Prop :=
  ∀ f path node,
    find_node (trie_of f self) path = Some node →
    ∀ i, i ∈ anime_ids node ↔
         ∃ a k, Dict.get i (_anime_by_id self) = Some a ∧
                k ∈ indexed_keys f a ∧ path `prefix_of` k.

(** Intersection of the three single-field results, as specified. *)
Definition intersection_as_specified (self : AnimeTrie) (t g s : str) : Prop :=
  ∀ r rt rg rs,
    advanced_search self (Some t) (Some g) (Some s) None = Ok r →
    search_by_title self t None = Ok rt →
    search_by_genre self g = Ok rg →
    search_by_studio self s = Ok rs →
    ∀ i, i ∈ (Anime.id <$> r) ↔
         i ∈ (Anime.id <$> rt) ∧ i ∈ (Anime.id <$> rg) ∧
         i ∈ (Anime.id <$> rs).

(** Prefix monotonicity of one store, as specified. *)
Definition monotone_as_specified (root : TrieNode) : Prop :=
  ∀ p1 p2 : str,
    p1 `prefix_of` p2 → p1 ≠ p2 →
    _search_in_trie root p2 ⊆ _search_in_trie root p1.

(** What a search returns, when it returns, for the identifier set [X]
    it looked up: stored records only, each under an identifier of [X],
    in strictly ascending order of identifier. *)
Definition live_and_ordered (self : AnimeTrie) (X : gset Z)
    (r : list Anime.t) : Prop :=
  (∀ a, a ∈ r →
        Dict.get (Anime.id a) (_anime_by_id self) = Some a ∧ Anime.id a ∈ X) ∧
  Sorted Z.lt (Anime.id <$> r).

(** No node of the trie has two children under one character. *)
Definition unique_children (root : TrieNode) : Prop :=
  ∀ path node,
    find_node root path = Some node → NoDup (Dict.keys (children node)).

(** Number of records [xs[:limit]] keeps of [len], under [if limit:]. *)
Definition limited_length (limit : option Z) (len : nat) : nat :=
  match limit with
  | None => len
  | Some n =>
      if n =? 0 then len
      else if 0 <? n then Nat.min (Z.to_nat n) len
      else (len - Z.to_nat (- n))%nat
  end.

(** [k] is the smallest identifier of [X] that the table does not hold. *)
Definition first_stale (self : AnimeTrie) (X : gset Z) (k : Z) : Prop :=
  k ∈ X ∧ Dict.mem k (_anime_by_id self) = false ∧
  ∀ j, j ∈ X → j < k → Dict.mem j (_anime_by_id self) = true.

End States.

(** Records used in the examples. *)
Module Samples.
Definition titled (i : Z) (title : string) : Anime.t :=
  Anime.mk i (py title) None None [] [].

Definition naruto : Anime.t := titled 1 "Naruto".
Definition bleach_as_1 : Anime.t := titled 1 "Bleach".
Definition bangs : Anime.t := titled 1 "!!!".
Definition nameless_genre : Anime.t :=
  Anime.mk 1 [] None None [Genre.mk 7 []] [].
Definition titan : Anime.t :=
  Anime.mk 1 (py "Attack on Titan") None None
           [Genre.mk 1 (py "Action")] [AnimeStudio.mk 1 (py "Wit")].
Definition tokyo : Anime.t :=
  Anime.mk 2 (py "Attack on Tokyo") None None
           [Genre.mk 2 (py "Drama")] [AnimeStudio.mk 1 (py "Wit")].
Definition spirited : Anime.t :=
  Anime.mk 3 (py "Sen to Chihiro no Kamikakushi") (Some (py "Spirited Away"))
           None [Genre.mk 3 (py "Fantasy")] [AnimeStudio.mk 2 (py "Ghibli")].
End Samples.

(** * Properties *)

(** ** Dictionaries *)

Section DictFacts.
Context {A : Type}.
Implicit Types (d : list (Z * A)) (k : Z) (v : A).

Lemma dict_get_set_eq d k v : Dict.get k (Dict.set k v d) = Some v.
Proof.
  induction d as [|[k' v'] d IH]; simpl.
  - by rewrite Z.eqb_refl.
  - destruct (k' =? k) eqn:E; simpl; [by rewrite Z.eqb_refl | by rewrite E].
Qed.

Lemma dict_get_set_ne d k k' v :
  k ≠ k' → Dict.get k' (Dict.set k v d) = Dict.get k' d.
Proof.
  intros Hne. induction d as [|[k0 v0] d IH]; simpl.
  - destruct (k =? k') eqn:E; [apply Z.eqb_eq in E; done | done].
  - destruct (k0 =? k) eqn:E; simpl.
    + apply Z.eqb_eq in E; subst k0.
      destruct (k =? k') eqn:E'; [apply Z.eqb_eq in E'; done | done].
    + by rewrite IH.
Qed.

Lemma dict_get_Some_keys d k v : Dict.get k d = Some v → k ∈ Dict.keys d.
Proof.
  induction d as [|[k0 v0] d IH]; simpl; [done|].
  destruct (k0 =? k) eqn:E.
  - apply Z.eqb_eq in E; subst. intros _. apply list_elem_of_here.
  - intros Hg. apply list_elem_of_further. by apply IH.
Qed.

Lemma dict_get_None_keys d k : Dict.get k d = None ↔ k ∉ Dict.keys d.
Proof.
  induction d as [|[k0 v0] d IH]; simpl.
  - split; [intros _; apply not_elem_of_nil | done].
  - rewrite not_elem_of_cons. destruct (k0 =? k) eqn:E.
    + apply Z.eqb_eq in E; subst. split; [done | intros [? _]; done].
    + apply Z.eqb_neq in E. rewrite IH. naive_solver.
Qed.

Lemma dict_mem_keys d k : Dict.mem k d = true ↔ k ∈ Dict.keys d.
Proof.
  unfold Dict.mem. destruct (Dict.get k d) eqn:E.
  - split; [intros _; by eapply dict_get_Some_keys | done].
  - split; [done | intros Hin; by apply dict_get_None_keys in E].
Qed.

Lemma dict_keys_set_new d k v :
  Dict.get k d = None → Dict.keys (Dict.set k v d) = Dict.keys d ++ [k].
Proof.
  induction d as [|[k0 v0] d IH]; simpl; [done|].
  destruct (k0 =? k) eqn:E; [done|]. intros Hg.
  unfold Dict.keys in *. simpl. f_equal. by apply IH.
Qed.

Lemma dict_get_del_ne d k k' :
  k ≠ k' → Dict.get k' (Dict.del k d) = Dict.get k' d.
Proof.
  intros Hne. induction d as [|[k0 v0] d IH]; simpl; [done|].
  destruct (k0 =? k) eqn:E; simpl.
  - apply Z.eqb_eq in E; subst k0.
    destruct (k =? k') eqn:E'; [apply Z.eqb_eq in E'; done | done].
  - by rewrite IH.
Qed.

Lemma dict_keys_del_sub d k i : i ∈ Dict.keys (Dict.del k d) → i ∈ Dict.keys d.
Proof.
  induction d as [|[k0 v0] d IH]; simpl; [done|].
  destruct (k0 =? k); simpl.
  - apply list_elem_of_further.
  - rewrite !elem_of_cons. intros [->|Hin]; [by left | right; by apply IH].
Qed.

Lemma dict_keys_del_NoDup d k : NoDup (Dict.keys d) → NoDup (Dict.keys (Dict.del k d)).
Proof.
  induction d as [|[k0 v0] d IH]; simpl; [done|].
  rewrite NoDup_cons. intros [Hnin Hnd].
  destruct (k0 =? k); simpl; [done|].
  apply NoDup_cons. split; [|by apply IH].
  intros Hin. apply Hnin. by eapply dict_keys_del_sub.
Qed.

Lemma dict_get_del_eq d k : NoDup (Dict.keys d) → Dict.get k (Dict.del k d) = None.
Proof.
  induction d as [|[k0 v0] d IH]; simpl; [done|].
  rewrite NoDup_cons. intros [Hnin Hnd].
  destruct (k0 =? k) eqn:E; simpl.
  - apply Z.eqb_eq in E; subst k0. by apply dict_get_None_keys.
  - rewrite E. by apply IH.
Qed.
End DictFacts.

(** ** Tries: what one insertion changes *)

Section TrieFacts.
Implicit Types (node child : TrieNode) (path key : str) (i j : Z).

Lemma ids_at_nil node : ids_at node [] = anime_ids node.
Proof. done. Qed.

Lemma ids_at_cons node c path :
  ids_at node (c :: path) =
    match Dict.get c (children node) with
    | None => ∅
    | Some child => ids_at child path
    end.
Proof. unfold ids_at; simpl. by destruct (Dict.get c (children node)). Qed.

Lemma ids_at_new_node path : ids_at new_node path = ∅.
Proof. by destruct path. Qed.

Lemma ids_at_ids_add i node c path :
  ids_at (ids_add i node) (c :: path) = ids_at node (c :: path).
Proof. by rewrite !ids_at_cons. Qed.

Lemma ids_at_with_child_eq c child node path :
  ids_at (with_child c child node) (c :: path) = ids_at child path.
Proof. rewrite ids_at_cons. simpl. by rewrite dict_get_set_eq. Qed.

Lemma ids_at_with_child_ne c c' child node path :
  c ≠ c' →
  ids_at (with_child c child node) (c' :: path) = ids_at node (c' :: path).
Proof. intros Hne. rewrite !ids_at_cons. simpl. by rewrite dict_get_set_ne. Qed.

(** The root keeps its set unless the key is empty. *)
Lemma root_ids_add_chars node key i j :
  j ∈ anime_ids (add_chars node key i) ↔
  j ∈ anime_ids node ∨ (j = i ∧ key = []).
Proof.
  destruct key as [|c key]; simpl.
  - set_solver.
  - naive_solver.
Qed.

(** Below the root, exactly the nodes on the path of the key gain the
    identifier. *)
Lemma below_root_add_chars key : ∀ node i j c path,
  j ∈ ids_at (add_chars node key i) (c :: path) ↔
  j ∈ ids_at node (c :: path) ∨ (j = i ∧ (c :: path) `prefix_of` key).
Proof.
  induction key as [|d key IH]; intros node i j c path.
  - simpl. rewrite ids_at_ids_add.
    assert (ids_at (mark_end node) (c :: path) = ids_at node (c :: path)) as ->
      by by rewrite !ids_at_cons.
    split; [by left|]. intros [?|[_ Hp]]; [done|]. by apply prefix_nil_not in Hp.
  - simpl. destruct (decide (d = c)) as [->|Hne].
    + rewrite ids_at_with_child_eq.
      set (child := default new_node (Dict.get c (children node))).
      assert (∀ q, ids_at node (c :: q) = ids_at child q) as Hold.
      { intros q. rewrite ids_at_cons. unfold child.
        destruct (Dict.get c (children node)); simpl; [done|].
        by rewrite ids_at_new_node. }
      destruct path as [|c' path].
      * rewrite ids_at_nil, root_ids_add_chars. simpl.
        rewrite Hold, ids_at_nil.
        split.
        -- intros [Hj|[-> _]].
           ++ apply elem_of_union in Hj as [Hj|Hj]; [|by left].
              apply elem_of_singleton in Hj as ->.
              right; split; [done|]. apply prefix_cons, prefix_nil.
           ++ right; split; [done|]. apply prefix_cons, prefix_nil.
        -- intros [Hj|[-> _]]; left; set_solver.
      * rewrite IH, ids_at_ids_add, Hold.
        split; (intros [Hj|[-> Hp]]; [by left|right; split; [done|]]).
        -- by apply prefix_cons.
        -- by apply prefix_cons_inv_2 in Hp.
    + rewrite ids_at_with_child_ne by done.
      split; [by left|]. intros [?|[_ Hp]]; [done|].
      apply prefix_cons_inv_1 in Hp. congruence.
Qed.

Lemma ids_at_add_chars node key i j path :
  j ∈ ids_at (add_chars node key i) path ↔
  j ∈ ids_at node path ∨ (j = i ∧ covers path key).
Proof.
  destruct path as [|c path].
  - rewrite !ids_at_nil. apply root_ids_add_chars.
  - apply below_root_add_chars.
Qed.

Lemma covers_shorter path c key :
  path ≠ [] → covers (path ++ [c]) key → covers path key.
Proof.
  destruct path as [|d path]; [done|]. intros _.
  exact (prefix_app_l (d :: path) key [c]).
Qed.

Lemma downward_new_node : downward new_node.
Proof. intros path c _. by rewrite !ids_at_new_node. Qed.

Lemma downward_add_chars node key i :
  downward node → downward (add_chars node key i).
Proof.
  intros Hd path c Hne j.
  rewrite !ids_at_add_chars. intros [Hj|[-> Hc]].
  - left. by apply (Hd path c Hne).
  - right. split; [done|]. by eapply covers_shorter.
Qed.

Lemma downward_extend node path ext :
  downward node → path ≠ [] → ids_at node (path ++ ext) ⊆ ids_at node path.
Proof.
  intros Hd Hne. induction ext as [|c ext IH] using rev_ind.
  - by rewrite app_nil_r.
  - rewrite app_assoc. etrans; [|apply IH].
    apply Hd. by destruct path.
Qed.
End TrieFacts.

(** ** The index: what one operation changes *)

Section IndexFacts.
Context `{Unicodedata}.
Implicit Types (self : AnimeTrie) (anime : Anime.t) (path : str) (i j : Z).

Lemma search_in_trie_ids_at root prefix :
  _search_in_trie root prefix = ids_at root (_normalize_text prefix).
Proof. done. Qed.

Lemma ids_at_add_keys (keys : list str) : ∀ root i j path,
  j ∈ ids_at (foldl (λ node k, add_chars node k i) root keys) path ↔
  j ∈ ids_at root path ∨ (j = i ∧ ∃ k, k ∈ keys ∧ covers path k).
Proof.
  induction keys as [|k keys IH]; intros root i j path; simpl.
  - split; [by left|]. intros [?|[_ (k & Hk & _)]]; [done|].
    by apply elem_of_nil in Hk.
  - rewrite IH, ids_at_add_chars. split.
    + intros [[Hj|[-> Hc]]|[-> (k' & Hk' & Hc)]]; [by left|right..].
      * split; [done|]. exists k. split; [apply list_elem_of_here | done].
      * split; [done|]. exists k'. split; [by apply list_elem_of_further | done].
    + intros [Hj|[-> (k' & Hk' & Hc)]]; [by left; left|].
      apply elem_of_cons in Hk' as [->|Hk'].
      * left; right; done.
      * right. split; [done|]. by exists k'.
Qed.

Lemma add_titles_keys root anime :
  add_titles root anime =
  foldl (λ node k, add_chars node k (Anime.id anime)) root
        (indexed_keys TitleField anime).
Proof.
  unfold add_titles, indexed_keys.
  generalize (elements (titles_of anime)) as titles. intros titles.
  revert root. induction titles as [|t titles IH]; intros root; [done|].
  simpl. rewrite filter_cons. destruct (nonblank t) eqn:E.
  - rewrite decide_True by done. simpl. apply IH.
  - rewrite decide_False by done. apply IH.
Qed.

Lemma add_genres_keys root anime :
  add_genres root anime =
  foldl (λ node k, add_chars node k (Anime.id anime)) root
        (indexed_keys GenreField anime).
Proof.
  unfold add_genres, indexed_keys.
  generalize (Anime.genres anime) as l. intros l. revert root.
  induction l as [|g l IH]; intros root; [done|]. simpl. apply IH.
Qed.

Lemma add_studios_keys root anime :
  add_studios root anime =
  foldl (λ node k, add_chars node k (Anime.id anime)) root
        (indexed_keys StudioField anime).
Proof.
  unfold add_studios, indexed_keys.
  generalize (Anime.studios anime) as l. intros l. revert root.
  induction l as [|g l IH]; intros root; [done|]. simpl. apply IH.
Qed.

(** [add_anime] on a fresh identifier, field by field. *)
Lemma add_anime_fresh self anime :
  Dict.get (Anime.id anime) (_anime_by_id self) = None →
  _anime_by_id (add_anime self anime) =
    Dict.set (Anime.id anime) anime (_anime_by_id self) ∧
  ∀ f, trie_of f (add_anime self anime) =
       foldl (λ node k, add_chars node k (Anime.id anime))
             (trie_of f self) (indexed_keys f anime).
Proof.
  intros Hnone. unfold add_anime, Dict.mem. rewrite Hnone. split; [done|].
  intros []; simpl.
  - apply add_titles_keys.
  - apply add_genres_keys.
  - apply add_studios_keys.
Qed.

Lemma add_anime_present self anime :
  Dict.mem (Anime.id anime) (_anime_by_id self) = true →
  add_anime self anime = self.
Proof. intros Hm. unfold add_anime. by rewrite Hm. Qed.

Lemma add_anime_cases self anime :
  add_anime self anime = self ∨
  Dict.get (Anime.id anime) (_anime_by_id self) = None.
Proof.
  destruct (Dict.mem (Anime.id anime) (_anime_by_id self)) eqn:E.
  - left. by apply add_anime_present.
  - right. unfold Dict.mem in E.
    by destruct (Dict.get (Anime.id anime) (_anime_by_id self)).
Qed.

Lemma add_anime_registers self anime :
  Dict.mem (Anime.id anime) (_anime_by_id (add_anime self anime)) = true.
Proof.
  destruct (Dict.mem (Anime.id anime) (_anime_by_id self)) eqn:E.
  - by rewrite add_anime_present.
  - unfold add_anime. rewrite E. simpl. unfold Dict.mem.
    by rewrite dict_get_set_eq.
Qed.

Lemma table_ok_nil : table_ok [].
Proof. split; [apply NoDup_nil_2 | done]. Qed.

Lemma table_ok_set table anime :
  Dict.get (Anime.id anime) table = None →
  table_ok table → table_ok (Dict.set (Anime.id anime) anime table).
Proof.
  intros Hnone [Hnd Hid]. split.
  - rewrite dict_keys_set_new by done.
    apply NoDup_app. split; [done|]. split; [|apply NoDup_singleton].
    intros x Hx Hx'. apply list_elem_of_singleton in Hx' as ->.
    by apply dict_get_None_keys in Hnone.
  - intros i a. destruct (decide (Anime.id anime = i)) as [<-|Hne].
    + rewrite dict_get_set_eq. by intros [= <-].
    + rewrite dict_get_set_ne by done. apply Hid.
Qed.

Lemma table_ok_del table i : table_ok table → table_ok (Dict.del i table).
Proof.
  intros [Hnd Hid]. split; [by apply dict_keys_del_NoDup|].
  intros j a. destruct (decide (i = j)) as [<-|Hne].
  - by rewrite dict_get_del_eq.
  - rewrite dict_get_del_ne by done. apply Hid.
Qed.

Lemma reachable_table_ok self : reachable self → table_ok (_anime_by_id self).
Proof.
  induction 1 as [|self anime _ IH|self i _ IH|self _ IH].
  - apply table_ok_nil.
  - destruct (add_anime_cases self anime) as [->|Hnone]; [done|].
    destruct (add_anime_fresh self anime Hnone) as [-> _].
    by apply table_ok_set.
  - unfold remove_anime. destruct (Dict.mem i (_anime_by_id self)); [|done].
    simpl. by apply table_ok_del.
  - apply table_ok_nil.
Qed.

Lemma built_reachable self : built self → reachable self.
Proof. induction 1; by constructor. Qed.

Lemma reachable_downward self f : reachable self → downward (trie_of f self).
Proof.
  induction 1 as [|self anime _ IH|self i _ IH|self _ IH].
  - destruct f; apply downward_new_node.
  - destruct (add_anime_cases self anime) as [->|Hnone]; [done|].
    destruct (add_anime_fresh self anime Hnone) as [_ ->].
    generalize (indexed_keys f anime) as keys. intros keys.
    revert IH. generalize (trie_of f self) as root. intros root.
    revert root. induction keys as [|k keys IHk]; intros root Hd; [done|].
    simpl. apply IHk. by apply downward_add_chars.
  - unfold remove_anime. destruct (Dict.mem i (_anime_by_id self)); [|done].
    by destruct f.
  - destruct f; apply downward_new_node.
Qed.

Lemma path_sets_new : path_sets new_index.
Proof.
  intros f path i. split.
  - destruct f; simpl; rewrite ids_at_new_node; set_solver.
  - by intros (a & k & Hg & _).
Qed.

Lemma built_path_sets self : built self → path_sets self.
Proof.
  induction 1 as [|self anime Hb IH|self _ IH].
  - apply path_sets_new.
  - destruct (add_anime_cases self anime) as [->|Hnone]; [done|].
    destruct (add_anime_fresh self anime Hnone) as [Htab Htrie].
    intros f path j. rewrite Htrie, Htab, ids_at_add_keys, (IH f path j).
    destruct (decide (Anime.id anime = j)) as [<-|Hne].
    + rewrite Hnone. split.
      * intros [(a & k & Hg & _)|[_ (k & Hk & Hc)]]; [done|].
        exists anime, k. by rewrite dict_get_set_eq.
      * intros (a & k & Hg & Hk & Hc). rewrite dict_get_set_eq in Hg.
        injection Hg as <-. right. split; [done|]. by exists k.
    + split.
      * intros [(a & k & Hg & Hk)|[-> _]]; [|done].
        exists a, k. by rewrite dict_get_set_ne.
      * intros (a & k & Hg & Hk). rewrite dict_get_set_ne in Hg by done.
        left. by exists a, k.
  - apply path_sets_new.
Qed.
End IndexFacts.

(** ** Sorting and materialisation *)

Section SortFacts.
Context {A : Type} (le : A → A → bool).

Lemma insert_sorted_Permutation x l : insert_sorted le x l ≡ₚ x :: l.
Proof.
  induction l as [|y l IH]; simpl; [done|].
  destruct (le x y); [done|]. rewrite IH. apply Permutation_swap.
Qed.

Lemma sorted_Permutation l : sorted le l ≡ₚ l.
Proof.
  induction l as [|x l IH]; simpl; [done|].
  unfold sorted in *. simpl. by rewrite insert_sorted_Permutation, IH.
Qed.
End SortFacts.

Lemma insert_sorted_Sorted x l :
  Sorted Z.le l → Sorted Z.le (insert_sorted Z.leb x l).
Proof.
  induction l as [|y l IH]; simpl; intros Hs.
  - by repeat constructor.
  - destruct (Z.leb_spec x y) as [Hle|Hlt].
    + constructor; [done|]. by constructor.
    + apply Sorted_inv in Hs as [Hs Hhd]. constructor; [by apply IH|].
      destruct l as [|z l]; simpl.
      * constructor. lia.
      * apply HdRel_inv in Hhd. destruct (x <=? z); constructor; lia.
Qed.

Lemma sorted_Sorted l : Sorted Z.le (sorted Z.leb l).
Proof.
  induction l as [|x l IH]; [constructor|].
  unfold sorted in *. simpl. by apply insert_sorted_Sorted.
Qed.

Lemma Sorted_take (l : list Z) n : Sorted Z.le l → Sorted Z.le (take n l).
Proof.
  revert n. induction l as [|x l IH]; intros [|n] Hs; simpl; try constructor.
  - apply IH. by apply Sorted_inv in Hs as [? _].
  - apply Sorted_inv in Hs as [_ Hhd].
    destruct l as [|y l], n as [|n]; simpl; constructor.
    by apply HdRel_inv in Hhd.
Qed.

Section MaterializeFacts.
Context `{Unicodedata}.
Implicit Types (table : list (Z * Anime.t)) (ids : list Z).

Lemma elem_of_sorted_ids (X : gset Z) i : i ∈ sorted_ids X ↔ i ∈ X.
Proof. unfold sorted_ids. by rewrite sorted_Permutation, elem_of_elements. Qed.

Lemma materialize_ids table ids l :
  table_ok table → materialize table ids = Ok l → Anime.id <$> l = ids.
Proof.
  intros [_ Hid]. revert l. induction ids as [|i ids IH]; intros l; simpl.
  - by intros [= <-].
  - destruct (Dict.get i table) as [a|] eqn:Hg; [|done].
    destruct (materialize table ids) as [l'|]; [|done].
    intros [= <-]. simpl. f_equal; [by apply Hid | by apply IH].
Qed.

Lemma materialize_Ok_keys table ids l :
  materialize table ids = Ok l → ∀ i, i ∈ ids → i ∈ Dict.keys table.
Proof.
  revert l. induction ids as [|i ids IH]; intros l; simpl.
  - intros _ j Hj. by apply elem_of_nil in Hj.
  - destruct (Dict.get i table) as [a|] eqn:Hg; [|done].
    destruct (materialize table ids) as [l'|]; [|done].
    intros _ j Hj. apply elem_of_cons in Hj as [->|Hj].
    + by eapply dict_get_Some_keys.
    + by eapply IH.
Qed.

Lemma materialize_total table ids :
  (∀ i, i ∈ ids → i ∈ Dict.keys table) → ∃ l, materialize table ids = Ok l.
Proof.
  induction ids as [|i ids IH]; intros Hall; simpl; [by eexists|].
  destruct (Dict.get i table) as [a|] eqn:Hg.
  - destruct IH as [l ->]; [|by eexists].
    intros j Hj. apply Hall. by apply list_elem_of_further.
  - apply dict_get_None_keys in Hg. destruct Hg. apply Hall, list_elem_of_here.
Qed.

Lemma apply_limit_Sorted limit (l : list Z) :
  Sorted Z.le l → Sorted Z.le (apply_limit limit l).
Proof.
  intros Hs. destruct limit as [n|]; simpl; [|done].
  destruct (n =? 0); [done|]. unfold slice_to.
  destruct (0 <=? n); by apply Sorted_take.
Qed.

Lemma apply_limit_fmap {X Y : Type} (f : X → Y) limit (l : list X) :
  f <$> apply_limit limit l = apply_limit limit (f <$> l).
Proof.
  destruct limit as [n|]; simpl; [|done].
  destruct (n =? 0); [done|]. unfold slice_to.
  rewrite length_fmap. destruct (0 <=? n); by rewrite fmap_take.
Qed.

Lemma limited_Ok limit res r :
  limited limit res = Ok r → ∃ l, res = Ok l ∧ r = apply_limit limit l.
Proof. destruct res as [l|k]; simpl; [|done]. intros [= <-]. by exists l. Qed.

Lemma materialize_elem table ids l a :
  materialize table ids = Ok l →
  a ∈ l ↔ ∃ i, i ∈ ids ∧ Dict.get i table = Some a.
Proof.
  revert l. induction ids as [|i ids IH]; intros l; simpl.
  - intros [= <-]. split; [by intros ?%elem_of_nil|].
    by intros (i & ?%elem_of_nil & _).
  - destruct (Dict.get i table) as [b|] eqn:Hg; [|done].
    destruct (materialize table ids) as [l'|]; [|done].
    intros [= <-]. rewrite elem_of_cons, (IH l' eq_refl). split.
    + intros [->|(j & Hj & Hgj)].
      * exists i. split; [apply list_elem_of_here | done].
      * exists j. split; [by apply list_elem_of_further | done].
    + intros (j & Hj & Hgj). apply elem_of_cons in Hj as [->|Hj].
      * left. congruence.
      * right. by exists j.
Qed.

Lemma materialize_length table ids l :
  materialize table ids = Ok l → length l = length ids.
Proof.
  revert l. induction ids as [|i ids IH]; intros l; simpl.
  - by intros [= <-].
  - destruct (Dict.get i table) as [a|]; [|done].
    destruct (materialize table ids) as [l'|]; [|done].
    intros [= <-]. simpl. f_equal. by apply IH.
Qed.

Lemma sorted_ids_length (X : gset Z) : length (sorted_ids X) = size X.
Proof. unfold sorted_ids. by rewrite sorted_Permutation. Qed.

(** The list comprehension of a search over the whole identifier set
    [X]: it returns when every identifier of [X] is in the table, and
    then it holds one record for each of them. *)
Lemma materialize_whole table (X : gset Z) :
  ((∀ i, i ∈ X → Dict.mem i table = true) →
   ∃ r, materialize table (sorted_ids X) = Ok r) ∧
  ∀ r, materialize table (sorted_ids X) = Ok r →
       length r = size X ∧
       ∀ i, i ∈ X → ∃ a, a ∈ r ∧ Dict.get i table = Some a.
Proof.
  split.
  - intros Hall. apply materialize_total. intros i Hi.
    apply dict_mem_keys, Hall. by apply elem_of_sorted_ids.
  - intros r Hr. split.
    + by rewrite (materialize_length _ _ _ Hr), sorted_ids_length.
    + intros i Hi.
      assert (i ∈ Dict.keys table) as Hk.
      { eapply materialize_Ok_keys; [done|]. by apply elem_of_sorted_ids. }
      destruct (Dict.get i table) as [a|] eqn:Hg.
      * exists a. split; [|done]. apply (materialize_elem _ _ _ a Hr).
        exists i. split; [by apply elem_of_sorted_ids | done].
      * by apply dict_get_None_keys in Hg.
Qed.

(** What a single-field search returns, when it returns. *)
Lemma materialize_sorted_ids table (X : gset Z) l :
  table_ok table → materialize table (sorted_ids X) = Ok l →
  (∀ i, i ∈ (Anime.id <$> l) ↔ i ∈ X) ∧ (∀ i, i ∈ X → i ∈ Dict.keys table).
Proof.
  intros Hok Hm. split.
  - intros i. rewrite (materialize_ids _ _ _ Hok Hm). apply elem_of_sorted_ids.
  - intros i Hi. eapply materialize_Ok_keys; [done|]. by apply elem_of_sorted_ids.
Qed.
End MaterializeFacts.

(** ** The normaliser: trimming against the two substitutions *)

Section NormalizerFacts.
Context `{Unicodedata}.
Implicit Types (s u v : str) (c d : char) (b : bool).

Lemma space_kept c : uni_isspace c = true → kept c = true.
Proof. unfold kept. intros ->. by rewrite orb_true_r. Qed.

Lemma drop_punctuation_cons c s :
  drop_punctuation (c :: s) =
    if kept c then c :: drop_punctuation s else drop_punctuation s.
Proof.
  unfold drop_punctuation. rewrite filter_cons.
  destruct (kept c); [by rewrite decide_True | by rewrite decide_False].
Qed.

Lemma all_space_drop_punctuation s :
  forallb uni_isspace s = true → drop_punctuation s = s.
Proof.
  induction s as [|c s IH]; [done|]. simpl.
  intros [Hc Hs]%andb_prop. rewrite drop_punctuation_cons, space_kept by done.
  by rewrite IH.
Qed.

Lemma rstrip_cons c s :
  rstrip (c :: s) =
    if forallb uni_isspace (c :: s) then [] else c :: rstrip s.
Proof. done. Qed.

Lemma rstrip_nil_iff s : rstrip s = [] ↔ forallb uni_isspace s = true.
Proof.
  destruct s as [|c s]; [done|]. rewrite rstrip_cons.
  by destruct (forallb uni_isspace (c :: s)).
Qed.

Lemma lstrip_head s :
  match lstrip s with [] => True | c :: _ => uni_isspace c = false end.
Proof.
  induction s as [|c s IH]; [done|]. simpl.
  by destruct (uni_isspace c) eqn:E.
Qed.

Lemma last_rstrip s d : last (rstrip s) = Some d → uni_isspace d = false.
Proof.
  induction s as [|c s IH]; [done|]. rewrite rstrip_cons.
  destruct (forallb uni_isspace (c :: s)) eqn:E; [done|].
  destruct (rstrip s) as [|c' s'] eqn:Er.
  - simpl. intros [= <-]. apply rstrip_nil_iff in Er.
    simpl in E. rewrite Er, andb_true_r in E. done.
  - intros Hl. apply IH. by rewrite last_cons_cons in Hl.
Qed.

Lemma strip_no_outer_space s : no_outer_space (strip s).
Proof.
  unfold strip. pose proof (lstrip_head s) as Hh.
  destruct (lstrip s) as [|c r] eqn:El; [done|].
  rewrite rstrip_cons. simpl forallb. rewrite Hh. simpl.
  split; [done|].
  destruct (last (c :: rstrip r)) as [d|] eqn:Hl.
  - exists d. split; [done|]. apply (last_rstrip (c :: r)).
    rewrite rstrip_cons. simpl forallb. by rewrite Hh.
  - rewrite last_cons in Hl. by destruct (last (rstrip r)).
Qed.

(** *** Trimming commutes with collapsing *)

Lemma lstrip_collapse b s :
  lstrip (collapse_from b s) = collapse_from false (lstrip s).
Proof.
  revert b. induction s as [|c s IH]; intros b; [done|]. simpl.
  destruct (uni_isspace c) eqn:E.
  - destruct b; simpl; [apply IH|].
    unfold SPACE. rewrite uni_space_isspace. apply IH.
  - simpl. by rewrite E.
Qed.

Lemma all_space_collapse b s :
  forallb uni_isspace s = true →
  forallb uni_isspace (collapse_from b s) = true.
Proof.
  revert b. induction s as [|c s IH]; intros b; [done|]. simpl.
  intros [Hc Hs]%andb_prop. rewrite Hc.
  destruct b; simpl; [by apply IH|].
  unfold SPACE. rewrite uni_space_isspace. by apply IH.
Qed.

Lemma not_all_space_collapse b s :
  forallb uni_isspace s = false →
  forallb uni_isspace (collapse_from b s) = false.
Proof.
  revert b. induction s as [|c s IH]; intros b; [done|]. simpl.
  destruct (uni_isspace c) eqn:E; simpl.
  - intros Hs. destruct b; simpl; [by apply IH|].
    rewrite IH by done. apply andb_false_r.
  - intros _. by rewrite E.
Qed.

Lemma rstrip_collapse b s :
  rstrip (collapse_from b s) = collapse_from b (rstrip s).
Proof.
  revert b. induction s as [|c s IH]; intros b; [done|].
  rewrite rstrip_cons. destruct (forallb uni_isspace (c :: s)) eqn:Ea.
  - apply rstrip_nil_iff. by apply all_space_collapse.
  - pose proof (not_all_space_collapse b _ Ea) as Hn.
    simpl in Hn |- *. destruct (uni_isspace c) eqn:E.
    + simpl in Ea. rewrite E in Ea. simpl in Ea. destruct b.
      * apply IH.
      * rewrite rstrip_cons, Hn. f_equal. apply IH.
    + rewrite rstrip_cons, Hn. f_equal. apply IH.
Qed.

Lemma strip_collapse s : strip (collapse_spaces s) = collapse_spaces (strip s).
Proof.
  unfold strip, collapse_spaces. by rewrite lstrip_collapse, rstrip_collapse.
Qed.

(** *** Trimming against dropping punctuation

    The trim does not commute with [drop_punctuation]: dropping a
    character can expose whitespace at an end.  One more trim after the
    substitution gives the same text whether or not the text was trimmed
    before it. *)

Lemma last_cons_nonempty c s : s ≠ [] → last (c :: s) = last s.
Proof. destruct s; [done|]. intros _. apply last_cons_cons. Qed.

Lemma rstrip_nonempty s : rstrip s ≠ [] → forallb uni_isspace s = false.
Proof.
  intros Hne. destruct (forallb uni_isspace s) eqn:Es; [|done].
  by apply rstrip_nil_iff in Es.
Qed.

Lemma lstrip_all_space s : forallb uni_isspace s = true → lstrip s = [].
Proof.
  induction s as [|c s IH]; [done|]. simpl.
  intros [Hc Hs]%andb_prop. rewrite Hc. by apply IH.
Qed.

Lemma rstrip_lstrip s : rstrip (lstrip s) = lstrip (rstrip s).
Proof.
  induction s as [|c s IH]; [done|]. rewrite (rstrip_cons c s). simpl.
  destruct (uni_isspace c) eqn:E; simpl.
  - destruct (forallb uni_isspace s) eqn:Es.
    + by rewrite (lstrip_all_space s Es).
    + simpl. by rewrite E.
  - by rewrite E.
Qed.

Lemma lstrip_drop_punctuation s :
  lstrip (drop_punctuation s) = lstrip (drop_punctuation (lstrip s)).
Proof.
  induction s as [|c s IH]; [done|]. simpl lstrip at 3.
  destruct (uni_isspace c) eqn:E; [|done].
  rewrite drop_punctuation_cons, space_kept by done. simpl. by rewrite E.
Qed.

Lemma rstrip_drop_punctuation s :
  rstrip (drop_punctuation s) = rstrip (drop_punctuation (rstrip s)).
Proof.
  induction s as [|c s IH]; [done|].
  rewrite (rstrip_cons c s). destruct (forallb uni_isspace (c :: s)) eqn:Ea.
  - rewrite all_space_drop_punctuation by done. by apply rstrip_nil_iff.
  - rewrite !drop_punctuation_cons. destruct (kept c); [|done].
    rewrite !rstrip_cons. simpl forallb.
    assert (forallb uni_isspace (drop_punctuation s) =
            forallb uni_isspace (drop_punctuation (rstrip s))) as ->.
    { apply Bool.eq_iff_eq_true. by rewrite <- !rstrip_nil_iff, IH. }
    by rewrite IH.
Qed.

Lemma strip_drop_punctuation s :
  strip (drop_punctuation s) = strip (drop_punctuation (strip s)).
Proof.
  unfold strip. rewrite lstrip_drop_punctuation.
  rewrite (rstrip_lstrip (drop_punctuation (lstrip s))).
  rewrite (rstrip_lstrip (drop_punctuation (rstrip (lstrip s)))).
  by rewrite (rstrip_drop_punctuation (lstrip s)).
Qed.

(** The pipeline that trims last is the code followed by one more
    trim. *)
Lemma normalize_trim_last_strip text :
  strip (_normalize_text text) = normalize_nfkd_trim_last text.
Proof.
  unfold _normalize_text, normalize_nfkd_trim_last.
  rewrite !strip_collapse. f_equal. symmetry. apply strip_drop_punctuation.
Qed.

(** *** Texts that a trim leaves alone *)

Lemma rstrip_fixed s d :
  last s = Some d → uni_isspace d = false → rstrip s = s.
Proof.
  induction s as [|c s IH]; [done|]. intros Hl Hd. rewrite rstrip_cons.
  destruct (decide (s = [])) as [->|Hne].
  - simpl in Hl. injection Hl as ->. simpl. by rewrite Hd.
  - rewrite last_cons_nonempty in Hl by done. specialize (IH Hl Hd).
    assert (forallb uni_isspace s = false) as Hs.
    { apply rstrip_nonempty. by rewrite IH. }
    simpl forallb. by rewrite Hs, andb_false_r, IH.
Qed.

Lemma strip_fixed_iff s : strip s = s ↔ no_outer_space s.
Proof.
  split.
  - intros Hs. rewrite <- Hs. apply strip_no_outer_space.
  - destruct s as [|c r]; [done|]. intros [Hc (d & Hl & Hd)].
    unfold strip. simpl lstrip. rewrite Hc. by apply (rstrip_fixed _ d).
Qed.

(** Collapsing the runs of whitespace keeps the kind of the last
    character. *)
Lemma last_collapse s : ∀ b d,
  last s = Some d →
  match last (collapse_from b s) with
  | Some d' => uni_isspace d' = uni_isspace d
  | None => b = true ∧ uni_isspace d = true
  end.
Proof.
  induction s as [|c s IH]; intros b d; [done|].
  destruct (decide (s = [])) as [->|Hne].
  - simpl. intros [= <-]. destruct (uni_isspace c) eqn:E; [|done].
    destruct b; simpl; [done|]. unfold SPACE. by rewrite uni_space_isspace.
  - rewrite last_cons_nonempty by done. intros Hl. simpl.
    destruct (uni_isspace c) eqn:E.
    + destruct b; [by apply IH|].
      specialize (IH true d Hl).
      destruct (collapse_from true s) as [|x l] eqn:Ec.
      * simpl. destruct IH as [_ ->]. unfold SPACE. by rewrite uni_space_isspace.
      * rewrite last_cons_cons.
        destruct (last (x :: l)) as [d'|] eqn:El; [done|].
        by apply last_None in El.
    + specialize (IH false d Hl).
      destruct (collapse_from false s) as [|x l] eqn:Ec.
      * by destruct IH.
      * rewrite last_cons_cons.
        destruct (last (x :: l)) as [d'|] eqn:El; [done|].
        by apply last_None in El.
Qed.

Lemma no_outer_space_collapse s :
  no_outer_space (collapse_spaces s) ↔ no_outer_space s.
Proof.
  destruct s as [|c r]; [done|].
  pose proof (last_collapse (c :: r) false) as Hl.
  unfold collapse_spaces in *. simpl collapse_from in *.
  destruct (uni_isspace c) eqn:E.
  - split.
    + intros [Hs _]. unfold SPACE in Hs. by rewrite uni_space_isspace in Hs.
    + intros [Hc _]. congruence.
  - simpl. split.
    + intros [_ (d' & Hd' & Hs)]. split; [done|].
      destruct (last (c :: r)) as [d|] eqn:Hd.
      * exists d. split; [done|]. specialize (Hl d eq_refl).
        rewrite Hd' in Hl. congruence.
      * rewrite last_cons in Hd. by destruct (last r).
    + intros [_ (d & Hd & Hs)]. split; [done|]. specialize (Hl d Hd).
      destruct (last (c :: collapse_from false r)) as [d'|].
      * exists d'. split; [done|]. congruence.
      * by destruct Hl.
Qed.

(** The code computes the pipeline that trims last exactly for the texts
    whose trimmed form, once its punctuation is dropped, has no
    whitespace at either end; these are also the texts whose normalised
    form has none. *)
Lemma normalize_trim_last_iff text :
  no_outer_space (drop_punctuation
    (strip (uni_lower (drop_combining (uni_nfkd text))))) ↔
  _normalize_text text = normalize_nfkd_trim_last text.
Proof.
  rewrite <- normalize_trim_last_strip.
  rewrite <- (no_outer_space_collapse (drop_punctuation _)).
  rewrite <- strip_fixed_iff. unfold _normalize_text. split; intros Hs; done.
Qed.

Lemma normalize_no_outer_space_iff text :
  no_outer_space (drop_punctuation
    (strip (uni_lower (drop_combining (uni_nfkd text))))) ↔
  no_outer_space (_normalize_text text).
Proof. symmetry. apply no_outer_space_collapse. Qed.
End NormalizerFacts.

(** ** Searches in states without a removal *)

Section BuiltFacts.
Context `{Unicodedata}.

(** Without a removal every identifier in a trie is live, so the searches
    return. *)
Lemma built_search_returns self f prefix :
  built self →
  ∃ r, materialize (_anime_by_id self)
         (sorted_ids (_search_in_trie (trie_of f self) prefix)) = Ok r.
Proof.
  intros Hb. apply materialize_total. intros i Hi.
  apply elem_of_sorted_ids in Hi. rewrite search_in_trie_ids_at in Hi.
  apply (built_path_sets self Hb) in Hi as (a & k & Hg & _).
  by eapply dict_get_Some_keys.
Qed.

Lemma built_search_by_title_returns self prefix limit :
  built self → ∃ r, search_by_title self prefix limit = Ok r.
Proof.
  intros Hb. unfold search_by_title.
  destruct (built_search_returns self TitleField prefix Hb) as [r Hr].
  simpl in Hr. rewrite Hr. by eexists.
Qed.

Lemma built_search_by_genre_returns self prefix :
  built self → ∃ r, search_by_genre self prefix = Ok r.
Proof. intros Hb. apply (built_search_returns self GenreField prefix Hb). Qed.

Lemma built_search_by_studio_returns self prefix :
  built self → ∃ r, search_by_studio self prefix = Ok r.
Proof. intros Hb. apply (built_search_returns self StudioField prefix Hb). Qed.
End BuiltFacts.

(** ** Re-adding and limits *)

(** C9. Re-add idempotence: once a record with some identifier has been
    added, [add_anime] with any record carrying that identifier, whatever
    its titles, genres and studios, leaves the index as it is; so
    [total_anime], every search, [get_suggestions] and [get_all_anime]
    answer as after the first add. *)
Theorem readd_is_noop `{Unicodedata} (self : AnimeTrie) (first again : Anime.t) :
  Anime.id again = Anime.id first →
  let once := add_anime self first in
  let twice := add_anime once again in
  twice = once ∧
  total_anime twice = total_anime once ∧
  get_all_anime twice = get_all_anime once ∧
  (∀ p limit, search_by_title twice p limit = search_by_title once p limit) ∧
  (∀ p, search_by_genre twice p = search_by_genre once p) ∧
  (∀ p, search_by_studio twice p = search_by_studio once p) ∧
  (∀ t g s limit,
     advanced_search twice t g s limit = advanced_search once t g s limit) ∧
  (∀ p n, get_suggestions twice p n = get_suggestions once p n).
Proof.
  intros Hid once twice.
  assert (twice = once) as ->; [|done].
  apply add_anime_present. rewrite Hid. apply add_anime_registers.
Qed.

Section ReaddSample.
Import Fragment.

Lemma readd_is_noop_witness :
  Anime.id Samples.bleach_as_1 = Anime.id Samples.naruto ∧
  add_anime (add_anime new_index Samples.naruto) Samples.bleach_as_1 =
    add_anime new_index Samples.naruto.
Proof.
  split; [reflexivity|].
  apply (readd_is_noop new_index Samples.naruto Samples.bleach_as_1).
  reflexivity.
Defined.

End ReaddSample.

(** C10. Zero limit: [search_by_title] and [advanced_search] called with
    [limit = 0] return the whole list, as they do without a limit: the
    list comprehension over all the identifiers of the query, uncut.
    The call returns when every identifier of the query is in the table,
    and the list it returns has one record for each identifier of the
    query. *)
Theorem zero_limit_is_no_limit `{Unicodedata} (self : AnimeTrie)
    (p : str) (t g s : option str) :
  let table := _anime_by_id self in
  let by_title := _search_in_trie (_root self) p in
  let by_fields := advanced_ids self t g s in
  (search_by_title self p (Some 0) = search_by_title self p None ∧
   search_by_title self p (Some 0) = materialize table (sorted_ids by_title) ∧
   ((∀ i, i ∈ by_title → Dict.mem i table = true) →
    ∃ r, search_by_title self p (Some 0) = Ok r) ∧
   ∀ r, search_by_title self p (Some 0) = Ok r →
        length r = size by_title ∧
        ∀ i, i ∈ by_title → ∃ a, a ∈ r ∧ Dict.get i table = Some a) ∧
  (advanced_search self t g s (Some 0) = advanced_search self t g s None ∧
   advanced_search self t g s (Some 0) =
     materialize table (sorted_ids by_fields) ∧
   ((∀ i, i ∈ by_fields → Dict.mem i table = true) →
    ∃ r, advanced_search self t g s (Some 0) = Ok r) ∧
   ∀ r, advanced_search self t g s (Some 0) = Ok r →
        length r = size by_fields ∧
        ∀ i, i ∈ by_fields → ∃ a, a ∈ r ∧ Dict.get i table = Some a).
Proof.
  intros table by_title by_fields.
  assert (∀ X, limited (Some 0) (materialize table (sorted_ids X)) =
               materialize table (sorted_ids X)) as Hzero.
  { intros X. by destruct (materialize _ _). }
  assert (∀ X, limited None (materialize table (sorted_ids X)) =
               materialize table (sorted_ids X)) as Hnone.
  { intros X. by destruct (materialize _ _). }
  split.
  - unfold search_by_title. fold table by_title.
    rewrite Hzero, Hnone. split; [done|]. split; [done|].
    apply materialize_whole.
  - unfold advanced_search. fold table by_fields.
    rewrite Hzero, Hnone. split; [done|]. split; [done|].
    apply materialize_whole.
Qed.

Section ZeroLimitSample.
Import Fragment.

Lemma zero_limit_is_no_limit_witness :
  let two := add_anime (add_anime new_index Samples.titan) Samples.tokyo in
  search_by_title two (py "Attack") (Some 0) =
    Ok [Samples.titan; Samples.tokyo] ∧
  advanced_search two (Some (py "Attack")) None (Some (py "Wit")) (Some 0) =
    Ok [Samples.titan; Samples.tokyo] ∧
  search_by_title two (py "Attack") (Some 1) = Ok [Samples.titan].
Proof.
  intros two.
  destruct (zero_limit_is_no_limit two (py "Attack")
              (Some (py "Attack")) None (Some (py "Wit")))
    as [(_ & Ht & _) (_ & Ha & _)].
  split; [|split].
  - rewrite Ht. vm_compute. reflexivity.
  - rewrite Ha. vm_compute. reflexivity.
  - vm_compute. reflexivity.
Defined.

End ZeroLimitSample.

(** ** Removal *)

Section RemovalSamples.
Import Fragment.

(** C1. Removal completeness fails in the code: [remove_anime] deletes
    the record from the table only.  After adding record 1 ("Naruto") and
    removing it ([remove_anime] answers [True]), the title trie still
    holds identifier 1 under the prefix "na", [search_by_title] and
    [advanced_search] raise [KeyError] there, and once identifier 1 is
    used for another record ("Bleach"), a search for "na" returns it. *)
Theorem removal_leaves_ids_in_tries :
  let added := add_anime new_index Samples.naruto in
  let removed := (remove_anime added 1).2 in
  (remove_anime added 1).1 = true ∧
  1 ∈ _search_in_trie (_root removed) (py "na") ∧
  search_by_title removed (py "na") None = KeyError 1 ∧
  advanced_search removed (Some (py "na")) None None None = KeyError 1 ∧
  get_all_anime removed = [] ∧
  search_by_title (add_anime removed Samples.bleach_as_1) (py "na") None
    = Ok [Samples.bleach_as_1].
Proof.
  intros added removed.
  split; [vm_compute; reflexivity|].
  split; [apply (bool_decide_unpack _); vm_compute; reflexivity|].
  repeat split; vm_compute; reflexivity.
Qed.

(** C2. Stale-reference safety fails in the code: after adding record 1
    ("Attack on Titan", genre "Action", studio "Wit") and removing it,
    each of the four searches looks identifier 1 up in the table and
    raises [KeyError]; [advanced_search] applies no membership filter.
    Only [get_suggestions] checks membership first. *)
Theorem search_raises_after_removal :
  let removed := (remove_anime (add_anime new_index Samples.titan) 1).2 in
  reachable removed ∧
  search_by_title removed (py "attack") None = KeyError 1 ∧
  search_by_genre removed (py "action") = KeyError 1 ∧
  search_by_studio removed (py "wit") = KeyError 1 ∧
  advanced_search removed (Some (py "attack")) (Some (py "action"))
                  (Some (py "wit")) None = KeyError 1 ∧
  get_suggestions removed (py "attack") 10 = [].
Proof.
  split; [apply reachable_remove, reachable_add, reachable_new|].
  repeat split; vm_compute; reflexivity.
Qed.

End RemovalSamples.

(** ** Empty keys *)

Section EmptyKeySamples.
Import Fragment.

(** C5. Empty keys do reach the tries: the title "!!!" is not blank, so it
    passes the [title.strip()] test of [add_anime], and normalises to the
    empty key; [_add_to_trie] then marks the root of the title trie and
    stores the identifier there, and the record is found by the empty
    prefix.  Genre and studio names are not tested at all: an empty genre
    name marks the root of the genre trie. *)
Theorem empty_keys_reach_the_root :
  let added := add_anime new_index Samples.bangs in
  let other := add_anime new_index Samples.nameless_genre in
  (∀ f k, k ∈ indexed_keys f Samples.bangs → k = []) ∧
  total_anime added = 1 ∧
  get_all_anime added = [Samples.bangs] ∧
  _root added = mkTrieNode [] true {[1]} ∧
  _root added ≠ _root new_index ∧
  search_by_title added [] None = Ok [Samples.bangs] ∧
  get_suggestions added [] 10 = [py "!!!"] ∧
  (∀ f k, k ∈ indexed_keys f Samples.nameless_genre → k = []) ∧
  _genre_trie other = mkTrieNode [] true {[1]} ∧
  search_by_genre other [] = Ok [Samples.nameless_genre].
Proof.
  assert (∀ f, indexed_keys f Samples.bangs = [] ∨
               indexed_keys f Samples.bangs = [[]]) as Hb.
  { intros []; [right | left | left]; vm_compute; reflexivity. }
  assert (∀ f, indexed_keys f Samples.nameless_genre = [] ∨
               indexed_keys f Samples.nameless_genre = [[]]) as Hn.
  { intros []; [left | right | left]; vm_compute; reflexivity. }
  repeat split; try (vm_compute; reflexivity).
  - intros f k Hk. destruct (Hb f) as [E|E]; rewrite E in Hk.
    + by apply elem_of_nil in Hk.
    + by apply list_elem_of_singleton in Hk.
  - vm_compute. discriminate.
  - intros f k Hk. destruct (Hn f) as [E|E]; rewrite E in Hk.
    + by apply elem_of_nil in Hk.
    + by apply list_elem_of_singleton in Hk.
Qed.

End EmptyKeySamples.

(** ** Normalisation *)

Section NormalizerSamples.
Import Fragment.

(** C6. Idempotence fails in the code: [strip] runs before the two
    substitutions, so the space that follows a dropped character
    survives: "! a" normalises to " a", which normalises to "a".  The
    three spellings of "naruto" do share one key. *)
Theorem normalize_not_idempotent :
  _normalize_text (py "! a") = py " a" ∧
  _normalize_text (_normalize_text (py "! a")) = py "a" ∧
  _normalize_text (_normalize_text (py "! a")) ≠ _normalize_text (py "! a") ∧
  _normalize_text (py "Naruto") = py "naruto" ∧
  _normalize_text (py "NARUTO") = py "naruto" ∧
  _normalize_text [110; 225; 114; 117; 116; 244] = py "naruto".
Proof. repeat split; try reflexivity. vm_compute. discriminate. Qed.

(** The code asks for the compatibility decomposition: superscript two
    becomes the digit, which the canonical decomposition of the
    specification leaves alone. *)
Lemma normalize_differs_from_specified_pipeline :
  _normalize_text [178] = [50] ∧ normalize_spec [178] = [178] ∧
  _normalize_text [178] ≠ normalize_spec [178].
Proof. repeat split; try reflexivity. vm_compute. discriminate. Qed.

End NormalizerSamples.

(** C7. For every text, [_normalize_text] followed by a trim is the
    pipeline: compatibility decomposition (NFKD), combining marks dropped,
    lower case, every character dropped that is not a word character,
    whitespace or hyphen, whitespace runs collapsed to one space, trim.
    [_normalize_text] itself is that pipeline, and its result has no
    leading or trailing whitespace, exactly for the texts whose trimmed,
    lower-cased, mark-free NFKD form has no whitespace at either end once
    the dropped characters are taken out of it. *)
Theorem normalize_is_trim_last_pipeline `{Unicodedata} (text : str) :
  let trimmed := strip (uni_lower (drop_combining (uni_nfkd text))) in
  strip (_normalize_text text) = normalize_nfkd_trim_last text ∧
  (no_outer_space (drop_punctuation trimmed) ↔
   _normalize_text text = normalize_nfkd_trim_last text) ∧
  (no_outer_space (drop_punctuation trimmed) ↔
   no_outer_space (_normalize_text text)).
Proof.
  intros trimmed. split; [apply normalize_trim_last_strip|]. split.
  - apply normalize_trim_last_iff.
  - apply normalize_no_outer_space_iff.
Qed.

Section TrimSample.
Import Fragment.

Lemma normalize_is_trim_last_pipeline_witness :
  _normalize_text (py "  (K-On!) ") = py "k-on" ∧
  _normalize_text (py "  (K-On!) ") =
    normalize_nfkd_trim_last (py "  (K-On!) ") ∧
  no_outer_space (_normalize_text (py "  (K-On!) ")).
Proof.
  split; [reflexivity|].
  destruct (normalize_is_trim_last_pipeline (py "  (K-On!) "))
    as (_ & [Heq _] & [Hno _]).
  assert (no_outer_space (drop_punctuation (strip (uni_lower
            (drop_combining (uni_nfkd (py "  (K-On!) "))))))) as Hc.
  { vm_compute. split; [reflexivity|]. eexists. split; reflexivity. }
  split; [exact (Heq Hc) | exact (Hno Hc)].
Defined.

(** Titles with punctuation at an end meet the condition; a text in
    which a dropped character stands between an end and whitespace does
    not, and keeps that whitespace. *)
Lemma trim_order_examples :
  Forall (λ text, _normalize_text text = normalize_nfkd_trim_last text)
         [py "K-On!"; py "(K-On)"; py "Haikyu!!"; py "Re:Zero.";
          py "...hack"; py "  Attack   on  Titan "] ∧
  Forall (λ text, _normalize_text text ≠ normalize_nfkd_trim_last text)
         [py "! a"; py "a !"; py "! !"] ∧
  _normalize_text (py "a !") = py "a ".
Proof.
  split; [|split; [|reflexivity]].
  - repeat (apply Forall_cons; split;
            [apply normalize_trim_last_iff; vm_compute;
             (split; [reflexivity|]); eexists; split; reflexivity|]).
    apply Forall_nil_2.
  - repeat (apply Forall_cons; split; [vm_compute; discriminate|]).
    apply Forall_nil_2.
Qed.

End TrimSample.

(** ** The identifier sets along the paths *)

Section PathSetSamples.
Import Fragment.

(** After one add, record 1 has the key "naruto", of which the empty
    path is a prefix, and the root of the title trie holds nothing:
    [_add_to_trie] annotates the nodes from the first child on. *)
Lemma root_set_is_not_a_path_set :
  reachable (add_anime new_index Samples.naruto) ∧
  ¬ path_set_as_specified (add_anime new_index Samples.naruto).
Proof.
  split; [apply reachable_add, reachable_new|].
  intros Hc.
  specialize (Hc TitleField [] _ eq_refl 1) as [_ Hc].
  assert (1 ∈ anime_ids (trie_of TitleField (add_anime new_index Samples.naruto)))
    as Hin.
  { apply Hc. exists Samples.naruto, (py "naruto").
    split; [reflexivity|]. split; [|apply prefix_nil].
    assert (indexed_keys TitleField Samples.naruto = [py "naruto"]) as ->
      by (vm_compute; reflexivity).
    apply list_elem_of_here. }
  revert Hin. apply (bool_decide_unpack _). vm_compute. reflexivity.
Qed.
End PathSetSamples.

(** C3. In every state reachable by [add_anime] and [clear], for every
    node of each of the three tries, the identifier set stored at the
    node is exactly the set of identifiers of the stored records that
    have an indexed key in that field which the node's path is a prefix
    of, for a node below the root, and which is the empty key, for the
    root. *)
Theorem path_set_invariant `{Unicodedata} (self : AnimeTrie) (f : field)
    (path : str) (node : TrieNode) :
  built self →
  find_node (trie_of f self) path = Some node →
  ∀ i, i ∈ anime_ids node ↔
       ∃ a k, Dict.get i (_anime_by_id self) = Some a ∧
              k ∈ indexed_keys f a ∧ covers path k.
Proof.
  intros Hb Hf i. rewrite <- (built_path_sets self Hb f path i).
  unfold ids_at. by rewrite Hf.
Qed.

Section PathSetWitness.
Import Fragment.

Lemma path_set_invariant_witness :
  let self := add_anime new_index Samples.naruto in
  built self ∧
  ∃ node, find_node (trie_of TitleField self) (py "na") = Some node ∧
    ∀ i, i ∈ anime_ids node ↔
         ∃ a k, Dict.get i (_anime_by_id self) = Some a ∧
                k ∈ indexed_keys TitleField a ∧ covers (py "na") k.
Proof.
  intros self.
  assert (built self) as Hb by apply built_add, built_new.
  split; [exact Hb|].
  destruct (find_node (trie_of TitleField self) (py "na")) as [node|] eqn:Hf.
  - exists node. split; [reflexivity|].
    exact (path_set_invariant self TitleField (py "na") node Hb Hf).
  - vm_compute in Hf. discriminate Hf.
Defined.
End PathSetWitness.

(** ** Prefix monotonicity *)

Section MonotoneSamples.
Import Fragment.

(** The empty prefix is answered from the root, which holds nothing,
    while "n" finds record 1. *)
Lemma empty_prefix_is_not_monotone :
  reachable (add_anime new_index Samples.naruto) ∧
  ¬ monotone_as_specified (_root (add_anime new_index Samples.naruto)).
Proof.
  split; [apply reachable_add, reachable_new|].
  intros Hc.
  assert ([] `prefix_of` py "n") as Hp by apply prefix_nil.
  specialize (Hc [] (py "n") Hp ltac:(discriminate) 1).
  assert (1 ∈ _search_in_trie (_root (add_anime new_index Samples.naruto)) [])
    as Hin.
  { apply Hc. apply (bool_decide_unpack _). vm_compute. reflexivity. }
  revert Hin. apply (bool_decide_unpack _). vm_compute. reflexivity.
Qed.
End MonotoneSamples.

(** C8. In every reachable state and for each of the three stores: when
    the normalised key of [p1] is not empty and is a prefix of the
    normalised key of [p2], the identifier set the trie query returns
    for [p1] contains the one it returns for [p2]. *)
Theorem prefix_monotone `{Unicodedata} (self : AnimeTrie) (f : field)
    (p1 p2 : str) :
  reachable self →
  _normalize_text p1 ≠ [] →
  _normalize_text p1 `prefix_of` _normalize_text p2 →
  _search_in_trie (trie_of f self) p2 ⊆ _search_in_trie (trie_of f self) p1.
Proof.
  intros Hr Hne [ext Hext]. rewrite !search_in_trie_ids_at, Hext.
  apply downward_extend; [|done]. by apply reachable_downward.
Qed.

Section MonotoneWitness.
Import Fragment.

Lemma prefix_monotone_witness :
  let self := add_anime new_index Samples.naruto in
  _search_in_trie (trie_of TitleField self) (py "Naru")
    ⊆ _search_in_trie (trie_of TitleField self) (py "na").
Proof.
  intros self.
  apply (prefix_monotone self TitleField (py "na") (py "Naru")).
  - apply reachable_add, reachable_new.
  - vm_compute. discriminate.
  - exists (py "ru"). vm_compute. reflexivity.
Defined.
End MonotoneWitness.

(** ** Multi-field search *)

Section IntersectionSamples.
Import Fragment.

(** An empty title prefix counts as not supplied: the title set takes
    no part in the intersection, while [search_by_title] with the same
    prefix answers from the root and finds nothing. *)
Lemma empty_prefix_is_not_intersected :
  reachable (add_anime new_index Samples.titan) ∧
  ¬ intersection_as_specified (add_anime new_index Samples.titan)
      [] (py "action") (py "wit").
Proof.
  split; [apply reachable_add, reachable_new|].
  intros Hc.
  specialize (Hc [Samples.titan] [] [Samples.titan] [Samples.titan]).
  specialize (Hc ltac:(vm_compute; reflexivity) ltac:(vm_compute; reflexivity)
                 ltac:(vm_compute; reflexivity) ltac:(vm_compute; reflexivity) 1).
  destruct Hc as [Hc _].
  destruct Hc as [Hc _]; [apply list_elem_of_here|].
  by apply elem_of_nil in Hc.
Qed.
End IntersectionSamples.

Section AdvancedSearchFacts.
Context `{Unicodedata}.

Lemma advanced_ids_all_fields self (t g s : str) :
  t ≠ [] → g ≠ [] → s ≠ [] →
  advanced_ids self (Some t) (Some g) (Some s) =
    _search_in_trie (_root self) t ∩ _search_in_trie (_genre_trie self) g
      ∩ _search_in_trie (_studio_trie self) s.
Proof. by destruct t, g, s. Qed.

Lemma advanced_search_sorted self ot og os limit r :
  reachable self →
  advanced_search self ot og os limit = Ok r →
  Sorted Z.le (Anime.id <$> r).
Proof.
  intros Hr Ha. apply limited_Ok in Ha as (l & Hm & ->).
  rewrite apply_limit_fmap. apply apply_limit_Sorted.
  rewrite (materialize_ids _ _ _ (reachable_table_ok _ Hr) Hm).
  apply sorted_Sorted.
Qed.
End AdvancedSearchFacts.

(** C4. In every reachable state: when the title, genre and studio
    prefixes are all supplied and none is the empty string, and the three
    single-field searches return, [advanced_search] returns and the
    identifiers of its result are those common to the three results; when
    no field is supplied it returns the records of all live identifiers;
    whatever the arguments, its result is in ascending order of
    identifier; and a positive limit [n] keeps the first [n] records of
    the result without a limit. *)
Theorem advanced_search_intersection `{Unicodedata} (self : AnimeTrie)
    (t g s : str) :
  reachable self → t ≠ [] → g ≠ [] → s ≠ [] →
  (∀ rt rg rs,
     search_by_title self t None = Ok rt →
     search_by_genre self g = Ok rg →
     search_by_studio self s = Ok rs →
     ∃ r, advanced_search self (Some t) (Some g) (Some s) None = Ok r ∧
          ∀ i, i ∈ (Anime.id <$> r) ↔
               i ∈ (Anime.id <$> rt) ∧ i ∈ (Anime.id <$> rg) ∧
               i ∈ (Anime.id <$> rs)) ∧
  (∃ r, advanced_search self None None None None = Ok r ∧
        ∀ i, i ∈ (Anime.id <$> r) ↔ i ∈ Dict.keys (_anime_by_id self)) ∧
  (∀ ot og os limit r,
     advanced_search self ot og os limit = Ok r →
     Sorted Z.le (Anime.id <$> r)) ∧
  (∀ ot og os n, 0 < n →
     advanced_search self ot og os (Some n) =
       match advanced_search self ot og os None with
       | Ok r => Ok (take (Z.to_nat n) r)
       | KeyError k => KeyError k
       end).
Proof.
  intros Hr Ht Hg Hs. pose proof (reachable_table_ok _ Hr) as Hok.
  split; [|split; [|split]].
  - intros rt rg rs Hrt Hrg Hrs.
    apply (materialize_sorted_ids _ _ _ Hok) in Hrg as [Hig _].
    apply (materialize_sorted_ids _ _ _ Hok) in Hrs as [His _].
    unfold search_by_title in Hrt. simpl in Hrt.
    destruct (materialize (_anime_by_id self)
                (sorted_ids (_search_in_trie (_root self) t)))
      as [lt|] eqn:Hmt; [|done].
    injection Hrt as <-.
    apply (materialize_sorted_ids _ _ _ Hok) in Hmt as [Hit Hkt].
    unfold advanced_search. rewrite advanced_ids_all_fields by done.
    set (X := _search_in_trie (_root self) t
                ∩ _search_in_trie (_genre_trie self) g
                ∩ _search_in_trie (_studio_trie self) s).
    destruct (materialize_total (_anime_by_id self) (sorted_ids X)) as [r Hm].
    { intros i Hi. apply elem_of_sorted_ids in Hi. apply Hkt.
      unfold X in Hi. set_solver. }
    exists r. rewrite Hm. split; [done|].
    intros i. apply (materialize_sorted_ids _ _ _ Hok) in Hm as [Hi _].
    rewrite Hi, Hit, Hig, His. unfold X. set_solver.
  - unfold advanced_search, advanced_ids. simpl.
    set (X := list_to_set (Dict.keys (_anime_by_id self)) : gset Z).
    destruct (materialize_total (_anime_by_id self) (sorted_ids X)) as [r Hm].
    { intros i Hi. apply elem_of_sorted_ids in Hi.
      by apply elem_of_list_to_set in Hi. }
    exists r. rewrite Hm. split; [done|].
    intros i. apply (materialize_sorted_ids _ _ _ Hok) in Hm as [Hi _].
    rewrite Hi. unfold X. apply elem_of_list_to_set.
  - intros ot og os limit r. by apply advanced_search_sorted.
  - intros ot og os n Hn. unfold advanced_search, limited, apply_limit.
    destruct (materialize _ _) as [l|k]; [|done].
    destruct (Z.eqb_spec n 0) as [->|_]; [lia|].
    unfold slice_to. destruct (Z.leb_spec 0 n); [done|lia].
Qed.

Section IntersectionWitness.
Import Fragment.

Lemma advanced_search_intersection_witness :
  let self := add_anime (add_anime new_index Samples.titan) Samples.tokyo in
  ∃ r, advanced_search self (Some (py "attack")) (Some (py "action"))
                       (Some (py "wit")) None = Ok r ∧
       ∀ i, i ∈ (Anime.id <$> r) ↔
            i ∈ (Anime.id <$> [Samples.titan; Samples.tokyo]) ∧
            i ∈ (Anime.id <$> [Samples.titan]) ∧
            i ∈ (Anime.id <$> [Samples.titan; Samples.tokyo]).
Proof.
  intros self.
  assert (reachable self) as Hr
    by apply reachable_add, reachable_add, reachable_new.
  destruct (advanced_search_intersection self (py "attack") (py "action")
              (py "wit") Hr ltac:(discriminate) ltac:(discriminate)
              ltac:(discriminate)) as [Hall _].
  apply Hall; vm_compute; reflexivity.
Defined.
End IntersectionWitness.

(** ** Suggestions: the loop ends within its bound *)

Section SuggestFacts.
Context `{Unicodedata}.
Implicit Types (stack : list (TrieNode * str)) (node : TrieNode).

Lemma stack_weight_cons node (word : str) stack :
  stack_weight ((node, word) :: stack) =
    (node_count node + stack_weight stack)%nat.
Proof. done. Qed.

Lemma stack_weight_app stack1 stack2 :
  stack_weight (stack1 ++ stack2) =
    (stack_weight stack1 + stack_weight stack2)%nat.
Proof.
  induction stack1 as [|p stack1 IH]; simpl; [done|].
  unfold stack_weight in *. simpl. rewrite IH. lia.
Qed.

Lemma stack_weight_rev stack : stack_weight (rev stack) = stack_weight stack.
Proof.
  induction stack as [|p stack IH]; [done|]. simpl.
  rewrite stack_weight_app, IH. unfold stack_weight. simpl. lia.
Qed.

Lemma node_count_children node (word : str) :
  node_count node =
    S (stack_weight
         ((λ p : char * TrieNode, (p.2, word ++ [p.1])) <$> children node)).
Proof.
  destruct node as [ch e ids]. simpl. f_equal.
  induction ch as [|[c n] ch IH]; [done|].
  unfold stack_weight in *. simpl. by rewrite IH.
Qed.

Lemma node_count_pos node : (0 < node_count node)%nat.
Proof. destruct node. simpl. lia. Qed.

(** Fuel beyond the number of nodes on the stack is never used: the
    loop has left through its own condition by then. *)
Lemma suggest_loop_enough_fuel table max_suggestions :
  ∀ fuel extra stack suggestions,
    (stack_weight stack ≤ fuel)%nat →
    suggest_loop (fuel + extra) table max_suggestions stack suggestions =
    suggest_loop fuel table max_suggestions stack suggestions.
Proof.
  induction fuel as [|fuel IH]; intros extra stack suggestions Hw.
  - destruct stack as [|[node word] stack].
    + by destruct extra.
    + rewrite stack_weight_cons in Hw.
      pose proof (node_count_pos node). lia.
  - destruct stack as [|[node word] stack]; [done|].
    rewrite stack_weight_cons, (node_count_children node word) in Hw.
    simpl.
    destruct (Z.of_nat (size suggestions) <? max_suggestions); [|done].
    apply IH. rewrite stack_weight_app, stack_weight_rev. lia.
Qed.

(** X22. The loop of [get_suggestions] has run out of nodes, or reached
    its bound, within as many iterations as the trie under the prefix has
    nodes: letting it run longer changes nothing. *)
Lemma get_suggestions_fuel_independent self prefix max_suggestions node extra :
  find_node (_root self) (_normalize_text prefix) = Some node →
  get_suggestions self prefix max_suggestions =
    sorted str_le
      (elements
         (suggest_loop (node_count node + extra) (_anime_by_id self)
            max_suggestions [(node, _normalize_text prefix)] ∅)).
Proof.
  intros Hf. unfold get_suggestions. rewrite Hf.
  rewrite suggest_loop_enough_fuel; [done|].
  rewrite stack_weight_cons. unfold stack_weight. simpl. lia.
Qed.
End SuggestFacts.

(** * Further properties of the index *)

(** ** One insertion into one trie *)

Section InsertFacts.
Context `{Unicodedata}.
Implicit Types (node root : TrieNode) (key : str) (i j : Z).

Lemma dict_set_set {A : Type} (d : list (Z * A)) k v :
  Dict.set k v (Dict.set k v d) = Dict.set k v d.
Proof.
  induction d as [|[k' v'] d IH]; simpl.
  - by rewrite Z.eqb_refl.
  - destruct (k' =? k) eqn:E; simpl.
    + by rewrite Z.eqb_refl.
    + by rewrite E, IH.
Qed.

Lemma ids_add_absorb i node : i ∈ anime_ids node → ids_add i node = node.
Proof.
  destruct node as [ch e ids]. unfold ids_add. simpl. intros Hi.
  f_equal. set_solver.
Qed.

Lemma find_node_add_chars key : ∀ node i,
  ∃ n, find_node (add_chars node key i) key = Some n ∧
       is_end_of_word n = true ∧ i ∈ anime_ids n.
Proof.
  induction key as [|c key IH]; intros node i; simpl.
  - eexists. split; [done|]. simpl. split; [done|]. set_solver.
  - rewrite dict_get_set_eq. apply IH.
Qed.

Lemma add_chars_twice key : ∀ node i,
  add_chars (add_chars node key i) key i = add_chars node key i.
Proof.
  induction key as [|c key IH]; intros node i; simpl.
  - destruct node as [ch e ids]. unfold ids_add, mark_end. simpl.
    f_equal. set_solver.
  - rewrite dict_get_set_eq. simpl.
    set (X := add_chars (ids_add i (default new_node (Dict.get c (children node))))
                        key i).
    assert (i ∈ anime_ids X) as Hi.
    { unfold X. apply root_ids_add_chars. left. simpl. set_solver. }
    rewrite (ids_add_absorb i X Hi). unfold X at 1. rewrite IH. fold X.
    unfold with_child. simpl. by rewrite dict_set_set.
Qed.

(** X1. The text just inserted is found again: its node exists, is marked as
    the end of a word and holds the identifier, and so does the node of
    every prefix the insertion annotates. *)
Theorem add_to_trie_then_search root (text prefix : str) i :
  covers (_normalize_text prefix) (_normalize_text text) →
  i ∈ _search_in_trie (_add_to_trie root text i) prefix ∧
  i ∈ _search_in_trie (_add_to_trie root text i) text ∧
  ∃ node, find_node (_add_to_trie root text i) (_normalize_text text)
            = Some node ∧
          is_end_of_word node = true ∧ i ∈ anime_ids node.
Proof.
  intros Hc. unfold _add_to_trie. rewrite !search_in_trie_ids_at.
  split; [apply ids_at_add_chars; by right|].
  destruct (find_node_add_chars (_normalize_text text) root i)
    as (n & Hf & He & Hi).
  split; [unfold ids_at; by rewrite Hf|]. by exists n.
Qed.

(** X2. An insertion takes nothing away and brings in nothing but its own
    identifier, whatever the prefix asked for. *)
Theorem add_to_trie_only_adds root (text prefix : str) i :
  _search_in_trie root prefix ⊆ _search_in_trie (_add_to_trie root text i) prefix ∧
  _search_in_trie (_add_to_trie root text i) prefix
    ⊆ {[i]} ∪ _search_in_trie root prefix.
Proof.
  unfold _add_to_trie. rewrite !search_in_trie_ids_at. split; intros j Hj.
  - apply ids_at_add_chars. by left.
  - apply ids_at_add_chars in Hj as [Hj|[-> _]]; set_solver.
Qed.

(** X3. Inserting the same text for the same identifier a second time
    changes nothing. *)
Theorem add_to_trie_idempotent root (text : str) i :
  _add_to_trie (_add_to_trie root text i) text i = _add_to_trie root text i.
Proof. apply add_chars_twice. Qed.
End InsertFacts.

Section InsertWitness.
Import Fragment.

Lemma add_to_trie_then_search_witness :
  1 ∈ _search_in_trie (_add_to_trie new_node (py "Naruto") 1) (py "NA").
Proof.
  assert (covers (_normalize_text (py "NA")) (_normalize_text (py "Naruto")))
    as Hc by (exists (py "ruto"); vm_compute; reflexivity).
  destruct (add_to_trie_then_search new_node (py "Naruto") (py "NA") 1 Hc)
    as [Hin _].
  exact Hin.
Defined.
End InsertWitness.

(** ** The record table under the operations *)

Section TableFacts.
Context `{Unicodedata}.
Implicit Types (self : AnimeTrie) (anime : Anime.t) (i j : Z).

Lemma dict_set_new_length {A : Type} (d : list (Z * A)) k v :
  Dict.get k d = None → length (Dict.set k v d) = S (length d).
Proof.
  induction d as [|[k' v'] d IH]; simpl; [done|].
  destruct (k' =? k); [done|]. intros Hg. simpl. by rewrite IH.
Qed.

Lemma dict_del_length {A : Type} (d : list (Z * A)) k :
  Dict.mem k d = true → S (length (Dict.del k d)) = length d.
Proof.
  unfold Dict.mem. induction d as [|[k' v'] d IH]; simpl; [done|].
  destruct (k' =? k); [done|]. intros Hg. simpl. by rewrite IH.
Qed.

Lemma dict_mem_false_get {A : Type} (d : list (Z * A)) k :
  Dict.mem k d = false → Dict.get k d = None.
Proof. unfold Dict.mem. by destruct (Dict.get k d). Qed.

Lemma dict_get_values {A : Type} (d : list (Z * A)) k v :
  Dict.get k d = Some v → v ∈ Dict.values d.
Proof.
  induction d as [|[k' v'] d IH]; simpl; [done|].
  destruct (k' =? k).
  - intros [= ->]. apply list_elem_of_here.
  - intros Hg. apply list_elem_of_further. by apply IH.
Qed.

Lemma dict_values_get {A : Type} (d : list (Z * A)) v :
  NoDup (Dict.keys d) → v ∈ Dict.values d → ∃ k, Dict.get k d = Some v.
Proof.
  induction d as [|[k' v'] d IH]; simpl.
  - intros _ Hv. by apply elem_of_nil in Hv.
  - rewrite NoDup_cons. intros [Hnin Hnd] Hv.
    apply elem_of_cons in Hv as [->|Hv].
    + exists k'. by rewrite Z.eqb_refl.
    + destruct (IH Hnd Hv) as [k Hk]. exists k.
      destruct (Z.eqb_spec k' k) as [->|_]; [|done].
      destruct Hnin. by eapply dict_get_Some_keys.
Qed.

(** X14. [total_anime] counts the records: one more after a record with a new
    identifier, the same after a re-add, one fewer after a removal that
    answers [True], the same after one that answers [False], which is the
    case exactly for an unknown identifier, and none after [clear]. *)
Theorem total_anime_counts self anime i :
  total_anime (add_anime self anime) =
    (if Dict.mem (Anime.id anime) (_anime_by_id self)
     then total_anime self else total_anime self + 1) ∧
  (remove_anime self i).1 = Dict.mem i (_anime_by_id self) ∧
  total_anime (remove_anime self i).2 =
    (if Dict.mem i (_anime_by_id self)
     then total_anime self - 1 else total_anime self) ∧
  total_anime (clear self) = 0.
Proof.
  unfold total_anime, add_anime, remove_anime. repeat split.
  - destruct (Dict.mem _ _) eqn:E; [done|]. simpl.
    rewrite dict_set_new_length by by apply dict_mem_false_get. lia.
  - by destruct (Dict.mem _ _).
  - destruct (Dict.mem _ _) eqn:E; [|done]. simpl.
    pose proof (dict_del_length _ _ E). lia.
Qed.

(** X15. In a reachable state a removal forgets the record and only it: the
    identifier is no longer in the table, the other entries are as
    before, no record of that identifier is listed by [get_all_anime],
    and a removal that answers [False] leaves the index as it was. *)
Theorem remove_anime_forgets_one self i :
  reachable self →
  let after := (remove_anime self i).2 in
  Dict.mem i (_anime_by_id after) = false ∧
  (∀ j, j ≠ i → Dict.get j (_anime_by_id after) = Dict.get j (_anime_by_id self)) ∧
  (∀ a, a ∈ get_all_anime after → Anime.id a ≠ i) ∧
  ((remove_anime self i).1 = false → after = self).
Proof.
  intros Hr after.
  assert (reachable after) as Hr' by by apply reachable_remove.
  pose proof (reachable_table_ok _ Hr) as [Hnd _].
  pose proof (reachable_table_ok _ Hr') as [Hnd' Hid'].
  assert (Dict.get i (_anime_by_id after) = None) as Hnone.
  { unfold after, remove_anime.
    destruct (Dict.mem i (_anime_by_id self)) eqn:E; simpl.
    - by apply dict_get_del_eq.
    - by apply dict_mem_false_get. }
  split; [unfold Dict.mem; by rewrite Hnone|]. split; [|split].
  - intros j Hne. unfold after, remove_anime.
    destruct (Dict.mem i (_anime_by_id self)); simpl; [|done].
    by apply dict_get_del_ne.
  - intros a Ha. unfold get_all_anime in Ha.
    rewrite sorted_Permutation in Ha.
    apply (dict_values_get _ _ Hnd') in Ha as [k Hk].
    rewrite (Hid' _ _ Hk). intros ->. congruence.
  - unfold after, remove_anime.
    by destruct (Dict.mem i (_anime_by_id self)).
Qed.
End TableFacts.

Section TableWitness.
Import Fragment.

Lemma remove_anime_forgets_one_witness :
  Dict.mem 1 (_anime_by_id
    (remove_anime (add_anime (add_anime new_index Samples.titan) Samples.tokyo) 1).2)
  = false.
Proof.
  apply (remove_anime_forgets_one
           (add_anime (add_anime new_index Samples.titan) Samples.tokyo) 1).
  apply reachable_add, reachable_add, reachable_new.
Defined.
End TableWitness.

(** ** Listing the catalogue *)

Lemma str_le_total (a b : str) : str_le a b = false → str_le b a = true.
Proof.
  revert b. induction a as [|x a IH]; intros [|y b]; simpl; try done.
  destruct (Z.ltb_spec x y), (Z.ltb_spec y x), (Z.eqb_spec x y),
    (Z.eqb_spec y x); simpl; try done; try lia.
  apply IH.
Qed.

Section TotalSortFacts.
Context {A : Type} (le : A → A → bool).
Hypothesis le_total : ∀ x y, le x y = false → le y x = true.

Lemma insert_sorted_total x l :
  Sorted (λ a b, le a b = true) l →
  Sorted (λ a b, le a b = true) (insert_sorted le x l).
Proof.
  induction l as [|y l IH]; simpl; intros Hs.
  - by repeat constructor.
  - destruct (le x y) eqn:E.
    + constructor; [done|]. by constructor.
    + apply Sorted_inv in Hs as [Hs Hhd]. constructor; [by apply IH|].
      destruct l as [|z l]; simpl.
      * constructor. by apply le_total.
      * apply HdRel_inv in Hhd. destruct (le x z); constructor; [|done].
        by apply le_total.
Qed.

Lemma sorted_total l : Sorted (λ a b, le a b = true) (sorted le l).
Proof.
  induction l as [|x l IH]; [constructor|].
  unfold sorted in *. simpl. by apply insert_sorted_total.
Qed.
End TotalSortFacts.

(** X16. [get_all_anime] lists every stored record once, as many as
    [total_anime] says, in the order of the lower-cased display
    titles. *)
Theorem get_all_anime_lists_the_table `{Unicodedata} (self : AnimeTrie) :
  get_all_anime self ≡ₚ Dict.values (_anime_by_id self) ∧
  Z.of_nat (length (get_all_anime self)) = total_anime self ∧
  Sorted (λ a b, str_le (uni_lower (Anime.display_title a))
                        (uni_lower (Anime.display_title b)) = true)
         (get_all_anime self).
Proof.
  unfold get_all_anime. split; [apply sorted_Permutation|]. split.
  - rewrite sorted_Permutation. unfold total_anime, Dict.values.
    by rewrite length_fmap.
  - apply sorted_total. intros x y. apply str_le_total.
Qed.

(** ** The empty index *)

Section EmptyFacts.
Context `{Unicodedata}.

Lemma search_in_trie_new_node (prefix : str) :
  _search_in_trie new_node prefix = ∅.
Proof. rewrite search_in_trie_ids_at. apply ids_at_new_node. Qed.

Lemma sorted_ids_empty : sorted_ids ∅ = [].
Proof. unfold sorted_ids. by rewrite elements_empty. Qed.

Lemma apply_limit_nil {A : Type} limit : apply_limit limit ([] : list A) = [].
Proof.
  destruct limit as [n|]; simpl; [|done]. destruct (n =? 0); [done|].
  unfold slice_to. destruct (0 <=? n); apply take_nil.
Qed.

Lemma refine_new_node (p : option str) (ids : option (gset Z)) :
  (ids = None ∨ ids = Some ∅) →
  refine new_node p ids = None ∨ refine new_node p ids = Some ∅.
Proof.
  intros Hi. destruct p as [[|c s]|]; simpl; try done.
  right. rewrite search_in_trie_new_node.
  destruct Hi as [->| ->]; [done|]. f_equal; try set_solver.
Qed.

(** X17. A new index, and any index after [clear], answers every query with
    an empty result and raises nothing; a removal answers [False]. *)
Theorem empty_index_answers_empty (self : AnimeTrie) (p : str)
    (t g s : option str) (limit : option Z) (n i : Z) :
  clear self = new_index ∧
  total_anime (clear self) = 0 ∧
  get_all_anime (clear self) = [] ∧
  search_by_title (clear self) p limit = Ok [] ∧
  search_by_genre (clear self) p = Ok [] ∧
  search_by_studio (clear self) p = Ok [] ∧
  advanced_search (clear self) t g s limit = Ok [] ∧
  get_suggestions (clear self) p n = [] ∧
  remove_anime (clear self) i = (false, clear self).
Proof.
  split; [done|]. split; [done|]. split; [done|].
  unfold search_by_title, search_by_genre, search_by_studio. simpl.
  rewrite !search_in_trie_new_node, sorted_ids_empty. simpl.
  rewrite apply_limit_nil.
  split; [done|]. split; [done|]. split; [done|]. split; [|split; [|done]].
  - unfold advanced_search.
    assert (advanced_ids (clear self) t g s = ∅) as ->.
    { unfold advanced_ids. simpl.
      destruct (refine_new_node t None (or_introl eq_refl)) as [E1|E1];
        rewrite E1.
      - destruct (refine_new_node g None (or_introl eq_refl)) as [E2|E2];
          rewrite E2.
        + by destruct (refine_new_node s None (or_introl eq_refl)) as [->| ->].
        + by destruct (refine_new_node s (Some ∅) (or_intror eq_refl)) as [E3|E3];
            rewrite E3.
      - destruct (refine_new_node g (Some ∅) (or_intror eq_refl)) as [E2|E2];
          rewrite E2.
        + by destruct (refine_new_node s None (or_introl eq_refl)) as [->| ->].
        + by destruct (refine_new_node s (Some ∅) (or_intror eq_refl)) as [E3|E3];
            rewrite E3. }
    rewrite sorted_ids_empty. simpl. by rewrite apply_limit_nil.
  - unfold get_suggestions. simpl.
    destruct (_normalize_text p) as [|c np]; simpl; [|done].
    match goal with |- context [if ?b then _ else _] => destruct b end;
      by rewrite elements_empty.
Qed.
End EmptyFacts.

(** ** What an addition changes in the searches *)

Section AddFacts.
Context `{Unicodedata}.
Implicit Types (self : AnimeTrie) (anime : Anime.t) (i j : Z).

Lemma covers_refl (key : str) : covers key key.
Proof. destruct key as [|c key]; [done|]. exists []. by rewrite app_nil_r. Qed.

Lemma built_table_ok self : built self → table_ok (_anime_by_id self).
Proof. intros Hb. by apply reachable_table_ok, built_reachable. Qed.

(** In a state without a removal a search by field returns, and returns
    exactly the stored records with a key of that field that the
    normalised prefix reaches. *)
Lemma built_search_spec self f (prefix : str) :
  built self →
  ∃ r, materialize (_anime_by_id self)
         (sorted_ids (_search_in_trie (trie_of f self) prefix)) = Ok r ∧
       ∀ a, a ∈ r ↔
            Dict.get (Anime.id a) (_anime_by_id self) = Some a ∧
            ∃ k, k ∈ indexed_keys f a ∧ covers (_normalize_text prefix) k.
Proof.
  intros Hb. destruct (built_search_returns self f prefix Hb) as [r Hr].
  exists r. split; [done|]. intros a.
  rewrite (materialize_elem _ _ _ a Hr).
  pose proof (built_table_ok self Hb) as [_ Hid].
  pose proof (built_path_sets self Hb f (_normalize_text prefix)) as Hps.
  split.
  - intros (i & Hi & Hg). rewrite (Hid _ _ Hg). split; [done|].
    apply elem_of_sorted_ids in Hi. rewrite search_in_trie_ids_at in Hi.
    apply Hps in Hi as (a' & k & Hg' & Hk & Hc).
    assert (a' = a) as -> by congruence. by exists k.
  - intros (Hg & k & Hk & Hc). exists (Anime.id a). split; [|done].
    apply elem_of_sorted_ids. rewrite search_in_trie_ids_at.
    apply Hps. by exists a, k.
Qed.

(** X5. Adding a record with a new identifier changes the answer of a trie
    query only by that identifier, and only for the prefixes that reach
    one of the record's own keys. *)
Theorem add_anime_changes_own_prefixes self anime f (prefix : str) :
  Dict.mem (Anime.id anime) (_anime_by_id self) = false →
  ∀ j, j ∈ _search_in_trie (trie_of f (add_anime self anime)) prefix ↔
       j ∈ _search_in_trie (trie_of f self) prefix ∨
       (j = Anime.id anime ∧
        ∃ k, k ∈ indexed_keys f anime ∧ covers (_normalize_text prefix) k).
Proof.
  intros Hm j. apply dict_mem_false_get in Hm.
  destruct (add_anime_fresh self anime Hm) as [_ ->].
  rewrite !search_in_trie_ids_at. apply ids_at_add_keys.
Qed.

(** X6. Without removals, the three single-field searches return exactly the
    stored records that have a title, genre or studio key which the
    normalised prefix reaches. *)
Theorem searches_return_the_matching_records self (prefix : str) :
  built self →
  (∃ r, search_by_title self prefix None = Ok r ∧
        ∀ a, a ∈ r ↔
             Dict.get (Anime.id a) (_anime_by_id self) = Some a ∧
             ∃ k, k ∈ indexed_keys TitleField a ∧
                  covers (_normalize_text prefix) k) ∧
  (∃ r, search_by_genre self prefix = Ok r ∧
        ∀ a, a ∈ r ↔
             Dict.get (Anime.id a) (_anime_by_id self) = Some a ∧
             ∃ k, k ∈ indexed_keys GenreField a ∧
                  covers (_normalize_text prefix) k) ∧
  (∃ r, search_by_studio self prefix = Ok r ∧
        ∀ a, a ∈ r ↔
             Dict.get (Anime.id a) (_anime_by_id self) = Some a ∧
             ∃ k, k ∈ indexed_keys StudioField a ∧
                  covers (_normalize_text prefix) k).
Proof.
  intros Hb. split; [|split].
  - destruct (built_search_spec self TitleField prefix Hb) as (r & Hr & Hs).
    exists r. split; [|done]. unfold search_by_title. simpl in Hr.
    by rewrite Hr.
  - apply (built_search_spec self GenreField prefix Hb).
  - apply (built_search_spec self StudioField prefix Hb).
Qed.

(** X7. Without removals, a record just added under a new identifier is
    found by a search for its title, for its display title, for its
    English title and for its Japanese title, each when it is not blank
    ([add_anime] skips a blank one), for any of its genre names and for
    any of its studio names. *)
Theorem added_record_is_found self anime :
  built self →
  Dict.mem (Anime.id anime) (_anime_by_id self) = false →
  let added := add_anime self anime in
  (∀ t, t = Anime.title anime ∨ t = Anime.display_title anime ∨
        Anime.title_english anime = Some t ∨
        Anime.title_japanese anime = Some t →
        nonblank t = true →
        ∃ r, search_by_title added t None = Ok r ∧ anime ∈ r) ∧
  (∀ g, g ∈ Anime.genres anime →
        ∃ r, search_by_genre added (Genre.name g) = Ok r ∧ anime ∈ r) ∧
  (∀ s, s ∈ Anime.studios anime →
        ∃ r, search_by_studio added (AnimeStudio.name s) = Ok r ∧ anime ∈ r).
Proof.
  intros Hb Hm added.
  assert (built added) as Hb' by by constructor.
  assert (Dict.get (Anime.id anime) (_anime_by_id added) = Some anime) as Hg.
  { apply dict_mem_false_get in Hm. unfold added.
    destruct (add_anime_fresh self anime Hm) as [-> _].
    apply dict_get_set_eq. }
  split; [|split].
  - intros t Ht Hnb.
    assert (t ∈ titles_of anime) as Hin.
    { unfold titles_of.
      destruct Ht as [->|[->|[He|Hj]]]; [set_solver | set_solver | |].
      - rewrite He. destruct t as [|c t]; [done|]. simpl. set_solver.
      - rewrite Hj. destruct t as [|c t]; [done|]. simpl. set_solver. }
    destruct (built_search_spec _ TitleField t Hb') as (r & Hr & Hs).
    exists r. split; [unfold search_by_title; simpl in Hr; by rewrite Hr|].
    apply Hs. split; [done|]. exists (_normalize_text t).
    split; [|apply covers_refl]. simpl.
    apply list_elem_of_fmap. exists t. split; [done|].
    apply list_elem_of_filter. split; [done|]. by apply elem_of_elements.
  - intros g Hin.
    destruct (built_search_spec _ GenreField (Genre.name g) Hb') as (r & Hr & Hs).
    exists r. split; [done|]. apply Hs. split; [done|].
    exists (_normalize_text (Genre.name g)). split; [|apply covers_refl].
    simpl. apply list_elem_of_fmap. by exists g.
  - intros s Hin.
    destruct (built_search_spec _ StudioField (AnimeStudio.name s) Hb')
      as (r & Hr & Hs).
    exists r. split; [done|]. apply Hs. split; [done|].
    exists (_normalize_text (AnimeStudio.name s)). split; [|apply covers_refl].
    simpl. apply list_elem_of_fmap. by exists s.
Qed.
End AddFacts.

(** ** What the searches return and when they raise *)

Section SearchFacts.
Context `{Unicodedata}.
Implicit Types (self : AnimeTrie) (table : list (Z * Anime.t)) (i j k : Z).

Lemma Sorted_le_NoDup_lt (l : list Z) : Sorted Z.le l → NoDup l → Sorted Z.lt l.
Proof.
  induction l as [|x l IH]; [constructor|].
  intros [Hs Hhd]%Sorted_inv [Hnin Hnd]%NoDup_cons.
  constructor; [by apply IH|].
  destruct l as [|y l]; constructor.
  apply HdRel_inv in Hhd.
  assert (x ≠ y) by (intros ->; apply Hnin, list_elem_of_here). lia.
Qed.

Lemma sorted_ids_strict (X : gset Z) : Sorted Z.lt (sorted_ids X).
Proof.
  apply Sorted_le_NoDup_lt; [apply sorted_Sorted|].
  unfold sorted_ids. rewrite sorted_Permutation. apply NoDup_elements.
Qed.

Lemma Sorted_lt_take (l : list Z) n : Sorted Z.lt l → Sorted Z.lt (take n l).
Proof.
  revert n. induction l as [|x l IH]; intros [|n] Hs; simpl; try constructor.
  - apply IH. by apply Sorted_inv in Hs as [? _].
  - apply Sorted_inv in Hs as [_ Hhd].
    destruct l as [|y l], n as [|n]; simpl; constructor.
    by apply HdRel_inv in Hhd.
Qed.

Lemma apply_limit_prefix {A : Type} limit (l : list A) :
  apply_limit limit l `prefix_of` l.
Proof.
  destruct limit as [n|]; simpl; [|done]. destruct (n =? 0); [done|].
  unfold slice_to. destruct (0 <=? n); apply prefix_take.
Qed.

Lemma apply_limit_Sorted_lt limit (l : list Z) :
  Sorted Z.lt l → Sorted Z.lt (apply_limit limit l).
Proof.
  intros Hs. destruct limit as [n|]; simpl; [|done].
  destruct (n =? 0); [done|]. unfold slice_to.
  destruct (0 <=? n); by apply Sorted_lt_take.
Qed.

Lemma limited_None (res : result (list Anime.t)) : limited None res = res.
Proof. by destruct res. Qed.

Lemma limited_live_and_ordered self (X : gset Z) limit r :
  table_ok (_anime_by_id self) →
  limited limit (materialize (_anime_by_id self) (sorted_ids X)) = Ok r →
  live_and_ordered self X r.
Proof.
  intros Hok Hl. apply limited_Ok in Hl as (l & Hm & ->).
  pose proof (materialize_ids _ _ _ Hok Hm) as Hids.
  destruct Hok as [_ Hid]. split.
  - intros a Ha.
    destruct (apply_limit_prefix limit l) as [rest Hrest].
    assert (a ∈ l) as Hal by (rewrite Hrest; apply elem_of_app; by left).
    apply (materialize_elem _ _ _ a Hm) in Hal as (i & Hi & Hg).
    rewrite (Hid _ _ Hg). split; [done|]. by apply elem_of_sorted_ids.
  - rewrite apply_limit_fmap. apply apply_limit_Sorted_lt.
    rewrite Hids. apply sorted_ids_strict.
Qed.

(** X8. In a reachable state, whatever a search returns is made of stored
    records, each found under its own identifier, which the trie query
    gave, and the records come in strictly ascending order of identifier,
    so none comes twice. *)
Theorem search_results_are_live_and_ordered self (p : str)
    (t g s : option str) (limit : option Z) :
  reachable self →
  (∀ r, search_by_title self p limit = Ok r →
        live_and_ordered self (_search_in_trie (_root self) p) r) ∧
  (∀ r, search_by_genre self p = Ok r →
        live_and_ordered self (_search_in_trie (_genre_trie self) p) r) ∧
  (∀ r, search_by_studio self p = Ok r →
        live_and_ordered self (_search_in_trie (_studio_trie self) p) r) ∧
  (∀ r, advanced_search self t g s limit = Ok r →
        live_and_ordered self (advanced_ids self t g s) r).
Proof.
  intros Hr. pose proof (reachable_table_ok _ Hr) as Hok.
  split; [|split; [|split]]; intros r Hs.
  - apply (limited_live_and_ordered self _ limit); [done | exact Hs].
  - apply (limited_live_and_ordered self _ None); [done|].
    rewrite limited_None. exact Hs.
  - apply (limited_live_and_ordered self _ None); [done|].
    rewrite limited_None. exact Hs.
  - apply (limited_live_and_ordered self _ limit); [done | exact Hs].
Qed.

Lemma materialize_KeyError table ids k :
  Sorted Z.lt ids →
  materialize table ids = KeyError k →
  k ∈ ids ∧ Dict.get k table = None ∧
  ∀ j, j ∈ ids → j < k → is_Some (Dict.get j table).
Proof.
  intros Hs%Sorted_StronglySorted; [|intros x y z; lia].
  induction Hs as [|i ids Hs IH Hall]; simpl; [done|].
  destruct (Dict.get i table) as [a|] eqn:Hg.
  - destruct (materialize table ids) as [l|k'] eqn:Hm; [done|].
    intros [= ->]. destruct (IH eq_refl) as (Hk & Hn & Hlt).
    split; [by apply list_elem_of_further|]. split; [done|].
    intros j Hj Hjk. apply elem_of_cons in Hj as [->|Hj]; [by eexists|].
    by apply Hlt.
  - intros [= ->]. split; [apply list_elem_of_here|]. split; [done|].
    intros j Hj Hjk. apply elem_of_cons in Hj as [->|Hj]; [lia|].
    rewrite Forall_forall in Hall. specialize (Hall j Hj). lia.
Qed.

Lemma limited_KeyError limit res k :
  limited limit res = KeyError k ↔ res = KeyError k.
Proof. by destruct res. Qed.

Lemma limited_first_stale self (X : gset Z) limit k :
  limited limit (materialize (_anime_by_id self) (sorted_ids X)) = KeyError k →
  first_stale self X k.
Proof.
  intros Hm%limited_KeyError.
  apply materialize_KeyError in Hm as (Hk & Hn & Hlt);
    [|apply sorted_ids_strict].
  split; [by apply elem_of_sorted_ids|].
  split; [unfold Dict.mem; by rewrite Hn|].
  intros j Hj Hjk. unfold Dict.mem.
  destruct (Hlt j) as [a ->]; [by apply elem_of_sorted_ids|done|done].
Qed.

Lemma limited_returns_iff self (X : gset Z) limit :
  (∃ r, limited limit (materialize (_anime_by_id self) (sorted_ids X)) = Ok r)
  ↔ ∀ i, i ∈ X → Dict.mem i (_anime_by_id self) = true.
Proof.
  split.
  - intros [r (l & Hm & _)%limited_Ok] i Hi.
    apply dict_mem_keys. eapply materialize_Ok_keys; [done|].
    by apply elem_of_sorted_ids.
  - intros Hall.
    destruct (materialize_total (_anime_by_id self) (sorted_ids X)) as [l ->].
    + intros i Hi. apply dict_mem_keys, Hall. by apply elem_of_sorted_ids.
    + simpl. by eexists.
Qed.

(** X10. In any state, a search that raises [KeyError] raises it for the
    smallest identifier in the set of its trie query that the table does
    not hold, and the limit plays no part in it. *)
Theorem search_raises_at_first_stale_id self (p : str) (t g s : option str)
    (limit : option Z) (k : Z) :
  (search_by_title self p limit = KeyError k →
   first_stale self (_search_in_trie (_root self) p) k) ∧
  (search_by_genre self p = KeyError k →
   first_stale self (_search_in_trie (_genre_trie self) p) k) ∧
  (search_by_studio self p = KeyError k →
   first_stale self (_search_in_trie (_studio_trie self) p) k) ∧
  (advanced_search self t g s limit = KeyError k →
   first_stale self (advanced_ids self t g s) k).
Proof.
  split; [|split; [|split]]; intros Hs.
  - apply (limited_first_stale self _ limit). exact Hs.
  - apply (limited_first_stale self _ None). rewrite limited_None. exact Hs.
  - apply (limited_first_stale self _ None). rewrite limited_None. exact Hs.
  - apply (limited_first_stale self _ limit). exact Hs.
Qed.

(** X9. In any state, a search returns exactly when the table holds every
    identifier its trie query gave. *)
Theorem search_returns_iff_all_live self (p : str) (t g s : option str)
    (limit : option Z) :
  ((∃ r, search_by_title self p limit = Ok r) ↔
   ∀ i, i ∈ _search_in_trie (_root self) p →
        Dict.mem i (_anime_by_id self) = true) ∧
  ((∃ r, search_by_genre self p = Ok r) ↔
   ∀ i, i ∈ _search_in_trie (_genre_trie self) p →
        Dict.mem i (_anime_by_id self) = true) ∧
  ((∃ r, search_by_studio self p = Ok r) ↔
   ∀ i, i ∈ _search_in_trie (_studio_trie self) p →
        Dict.mem i (_anime_by_id self) = true) ∧
  ((∃ r, advanced_search self t g s limit = Ok r) ↔
   ∀ i, i ∈ advanced_ids self t g s →
        Dict.mem i (_anime_by_id self) = true).
Proof.
  split; [|split; [|split]].
  - apply (limited_returns_iff self _ limit).
  - rewrite <- (limited_returns_iff self _ None).
    by setoid_rewrite limited_None.
  - rewrite <- (limited_returns_iff self _ None).
    by setoid_rewrite limited_None.
  - apply (limited_returns_iff self _ limit).
Qed.
End SearchFacts.

(** ** Limits, removals and single fields *)

Section ComposeFacts.
Context `{Unicodedata}.
Implicit Types (self : AnimeTrie) (table : list (Z * Anime.t)) (i j k : Z).

Lemma apply_limit_length {A : Type} limit (l : list A) :
  length (apply_limit limit l) = limited_length limit (length l).
Proof.
  destruct limit as [n|]; simpl; [|done].
  destruct (Z.eqb_spec n 0) as [->|Hn]; [done|]. unfold slice_to.
  destruct (Z.leb_spec 0 n), (Z.ltb_spec 0 n); try lia;
    rewrite length_take; lia.
Qed.

Lemma limited_prefix limit res r :
  limited limit res = Ok r →
  ∃ full, limited None res = Ok full ∧ r `prefix_of` full ∧
          length r = limited_length limit (length full).
Proof.
  intros (l & -> & ->)%limited_Ok. exists l. split; [done|].
  split; [apply apply_limit_prefix | apply apply_limit_length].
Qed.

(** X11. Whatever the limit, the records [search_by_title] and
    [advanced_search] return are the first ones of what they return
    without a limit: [n] of them for a positive limit [n] (all, if there
    are fewer), all but the last [-n] for a negative one, all for zero;
    and a limit never turns a [KeyError] into a result or a result into a
    [KeyError]. *)
Theorem limit_keeps_a_prefix self (p : str) (t g s : option str)
    (limit : option Z) (r : list Anime.t) :
  (search_by_title self p limit = Ok r →
   ∃ full, search_by_title self p None = Ok full ∧ r `prefix_of` full ∧
           length r = limited_length limit (length full)) ∧
  (advanced_search self t g s limit = Ok r →
   ∃ full, advanced_search self t g s None = Ok full ∧ r `prefix_of` full ∧
           length r = limited_length limit (length full)) ∧
  (∀ k, search_by_title self p limit = KeyError k ↔
        search_by_title self p None = KeyError k) ∧
  (∀ k, advanced_search self t g s limit = KeyError k ↔
        advanced_search self t g s None = KeyError k).
Proof.
  split; [apply limited_prefix|]. split; [apply limited_prefix|]. split.
  - intros k. unfold search_by_title. by rewrite !limited_KeyError.
  - intros k. unfold advanced_search. by rewrite !limited_KeyError.
Qed.

Lemma materialize_del table ids i :
  i ∉ ids → materialize (Dict.del i table) ids = materialize table ids.
Proof.
  induction ids as [|j ids IH]; [done|]. simpl.
  intros [Hne Hnin]%not_elem_of_cons.
  rewrite dict_get_del_ne by done. by rewrite IH.
Qed.

Lemma remove_anime_tries self i f :
  trie_of f (remove_anime self i).2 = trie_of f self.
Proof.
  unfold remove_anime. destruct (Dict.mem i (_anime_by_id self)); by destruct f.
Qed.

Lemma remove_anime_materialize self i (X : gset Z) :
  i ∉ X →
  materialize (_anime_by_id (remove_anime self i).2) (sorted_ids X) =
  materialize (_anime_by_id self) (sorted_ids X).
Proof.
  intros Hi. unfold remove_anime.
  destruct (Dict.mem i (_anime_by_id self)); [|done]. simpl.
  apply materialize_del. by rewrite elem_of_sorted_ids.
Qed.

(** X12. A removal leaves alone every single-field search whose trie query
    does not give the removed identifier: it answers as before. *)
Theorem removal_spares_other_searches self i (p : str) (limit : option Z) :
  (i ∉ _search_in_trie (_root self) p →
   search_by_title (remove_anime self i).2 p limit =
     search_by_title self p limit) ∧
  (i ∉ _search_in_trie (_genre_trie self) p →
   search_by_genre (remove_anime self i).2 p = search_by_genre self p) ∧
  (i ∉ _search_in_trie (_studio_trie self) p →
   search_by_studio (remove_anime self i).2 p = search_by_studio self p).
Proof.
  unfold search_by_title, search_by_genre, search_by_studio.
  pose proof (remove_anime_tries self i TitleField) as Ht.
  pose proof (remove_anime_tries self i GenreField) as Hg.
  pose proof (remove_anime_tries self i StudioField) as Hs.
  simpl in Ht, Hg, Hs. rewrite Ht, Hg, Hs.
  split; [|split]; intros Hi; by rewrite remove_anime_materialize.
Qed.

(** X13. [advanced_search] with one field supplied, and not empty, is the
    single-field search of that field; an empty string supplied for a
    field counts as no field. *)
Theorem advanced_search_single_field self (p : str)
    (t g s : option str) (limit : option Z) :
  p ≠ [] →
  advanced_search self (Some p) None None limit = search_by_title self p limit ∧
  advanced_search self None (Some p) None None = search_by_genre self p ∧
  advanced_search self None None (Some p) None = search_by_studio self p ∧
  advanced_search self (Some []) g s limit = advanced_search self None g s limit ∧
  advanced_search self t (Some []) s limit = advanced_search self t None s limit ∧
  advanced_search self t g (Some []) limit = advanced_search self t g None limit.
Proof.
  intros Hp. destruct p as [|c p]; [done|].
  unfold advanced_search, search_by_title, search_by_genre, search_by_studio.
  unfold advanced_ids. simpl. rewrite !limited_None.
  repeat split; done.
Qed.
End ComposeFacts.

(** ** Suggestions *)

Section SuggestionFacts.
Context `{Unicodedata}.
Implicit Types (self : AnimeTrie) (table : list (Z * Anime.t))
  (acc : gset (list Z)) (stack : list (TrieNode * list Z)).

Lemma collect_titles_live table max_suggestions ids acc (P : list Z → Prop) :
  (∀ i a, Dict.get i table = Some a → P (Anime.display_title a)) →
  (∀ t, t ∈ acc → P t) →
  ∀ t, t ∈ collect_titles table max_suggestions ids acc → P t.
Proof.
  intros HP. revert acc. induction ids as [|i ids IH]; intros acc Hacc; [done|].
  simpl. destruct (Dict.get i table) as [a|] eqn:Hg; [|by apply IH].
  assert (∀ t, t ∈ ({[Anime.display_title a]} ∪ acc : gset (list Z)) → P t)
    as Hacc'.
  { intros t [->%elem_of_singleton|Ht]%elem_of_union; [by eapply HP | by apply Hacc]. }
  destruct (max_suggestions <=? _); [done | by apply IH].
Qed.

Lemma suggest_loop_live table max_suggestions (P : list Z → Prop) :
  (∀ i a, Dict.get i table = Some a → P (Anime.display_title a)) →
  ∀ fuel stack acc,
    (∀ t, t ∈ acc → P t) →
    ∀ t, t ∈ suggest_loop fuel table max_suggestions stack acc → P t.
Proof.
  intros HP. induction fuel as [|fuel IH]; intros stack acc Hacc; [done|].
  simpl. destruct stack as [|[node word] stack]; [done|].
  destruct (_ <? max_suggestions); [|done].
  apply IH. destruct (is_end_of_word node); [|done].
  by apply collect_titles_live.
Qed.

Lemma collect_titles_bound table max_suggestions ids acc :
  Z.of_nat (size acc) < max_suggestions →
  Z.of_nat (size (collect_titles table max_suggestions ids acc))
    ≤ max_suggestions.
Proof.
  revert acc. induction ids as [|i ids IH]; intros acc Hlt; simpl; [lia|].
  destruct (Dict.get i table) as [a|]; [|by apply IH].
  destruct (Z.leb_spec max_suggestions
              (Z.of_nat (size ({[Anime.display_title a]} ∪ acc)))) as [Hle|Hgt].
  - rewrite size_union_alt, size_singleton.
    assert (size (acc ∖ {[Anime.display_title a]}) ≤ size acc)%nat
      by (apply subseteq_size; set_solver).
    lia.
  - by apply IH.
Qed.

Lemma suggest_loop_bound table max_suggestions : ∀ fuel stack acc,
  Z.of_nat (size acc) ≤ Z.max 0 max_suggestions →
  Z.of_nat (size (suggest_loop fuel table max_suggestions stack acc))
    ≤ Z.max 0 max_suggestions.
Proof.
  induction fuel as [|fuel IH]; intros stack acc Hle; [done|].
  simpl. destruct stack as [|[node word] stack]; [done|].
  destruct (Z.ltb_spec (Z.of_nat (size acc)) max_suggestions) as [Hlt|_];
    [|done].
  apply IH. destruct (is_end_of_word node); [|done].
  pose proof (collect_titles_bound table max_suggestions
                (elements (anime_ids node)) acc Hlt). lia.
Qed.

(** X18. In any state, also right after a removal, every suggestion is the
    display title of a record that is in the table. *)
Theorem suggestions_are_live_titles self (prefix : str) (max_suggestions : Z)
    (t : str) :
  t ∈ get_suggestions self prefix max_suggestions →
  ∃ i a, Dict.get i (_anime_by_id self) = Some a ∧ Anime.display_title a = t.
Proof.
  unfold get_suggestions.
  destruct (find_node (_root self) (_normalize_text prefix)) as [node|];
    [|by intros ?%elem_of_nil].
  rewrite sorted_Permutation, elem_of_elements.
  apply (suggest_loop_live _ _
           (λ t, ∃ i a, Dict.get i (_anime_by_id self) = Some a ∧
                        Anime.display_title a = t)).
  - intros i a Hg. by exists i, a.
  - by intros t' ?%elem_of_empty.
Qed.

(** X19. [get_suggestions] returns at most [max_suggestions] titles (none for
    a bound of zero or less), each once, in ascending order. *)
Theorem suggestions_are_bounded self (prefix : str) (max_suggestions : Z) :
  Z.of_nat (length (get_suggestions self prefix max_suggestions))
    ≤ Z.max 0 max_suggestions ∧
  NoDup (get_suggestions self prefix max_suggestions) ∧
  Sorted (λ a b, str_le a b = true)
         (get_suggestions self prefix max_suggestions).
Proof.
  unfold get_suggestions.
  destruct (find_node (_root self) (_normalize_text prefix)) as [node|].
  - split; [|split].
    + rewrite sorted_Permutation. apply suggest_loop_bound.
      rewrite size_empty. lia.
    + rewrite sorted_Permutation. apply NoDup_elements.
    + apply sorted_total, str_le_total.
  - split; [simpl; lia|]. split; [apply NoDup_nil_2 | constructor].
Qed.
End SuggestionFacts.

(** ** Suggestions and the prefix *)

Section SuggestionPrefixFacts.
Context `{Unicodedata}.
Implicit Types (self : AnimeTrie) (table : list (Z * Anime.t))
  (node root child : TrieNode) (acc : gset (list Z))
  (stack : list (TrieNode * list Z)).

Lemma dict_set_keys_NoDup {A : Type} (d : list (Z * A)) k v :
  NoDup (Dict.keys d) → NoDup (Dict.keys (Dict.set k v d)).
Proof.
  destruct (Dict.get k d) as [w|] eqn:Hg.
  - assert (Dict.keys (Dict.set k v d) = Dict.keys d) as ->; [|done].
    revert Hg. induction d as [|[k' v'] d IH]; simpl; [done|].
    destruct (Z.eqb_spec k' k) as [->|Hne]; [done|].
    intros Hg. unfold Dict.keys in *. simpl. f_equal. by apply IH.
  - intros Hnd. rewrite dict_keys_set_new by done.
    apply NoDup_app. split; [done|]. split; [|apply NoDup_singleton].
    intros x Hx ->%list_elem_of_singleton.
    by apply dict_get_None_keys in Hg.
Qed.

Lemma dict_get_of_elem {A : Type} (d : list (Z * A)) k v :
  NoDup (Dict.keys d) → (k, v) ∈ d → Dict.get k d = Some v.
Proof.
  induction d as [|[k' v'] d IH]; simpl.
  - by intros _ ?%elem_of_nil.
  - intros [Hnin Hnd]%NoDup_cons [[= -> ->]|Hin]%elem_of_cons.
    + by rewrite Z.eqb_refl.
    + destruct (Z.eqb_spec k' k) as [->|_]; [|by apply IH].
      destruct Hnin. apply list_elem_of_fmap. by exists (k, v).
Qed.

Lemma elem_of_rev {A : Type} (x : A) (l : list A) : x ∈ rev l ↔ x ∈ l.
Proof. rewrite !list_elem_of_In. symmetry. apply in_rev. Qed.

Lemma find_node_snoc root (word : str) c node :
  find_node root word = Some node →
  find_node root (word ++ [c]) = Dict.get c (children node).
Proof.
  revert root. induction word as [|d word IH]; intros root; simpl.
  - intros [= ->]. by destruct (Dict.get c (children node)).
  - destruct (Dict.get d (children root)) as [child|]; [apply IH | done].
Qed.

Lemma unique_children_new_node : unique_children new_node.
Proof.
  intros [|c path] node; simpl; [|done]. intros [= <-]. apply NoDup_nil_2.
Qed.

Lemma unique_children_child node c child :
  unique_children node → Dict.get c (children node) = Some child →
  unique_children child.
Proof.
  intros Hu Hg path n Hf. apply (Hu (c :: path)). simpl. by rewrite Hg.
Qed.

Lemma unique_children_add_chars (key : str) : ∀ node i,
  unique_children node → unique_children (add_chars node key i).
Proof.
  induction key as [|c key IH]; intros node i Hu path n; simpl.
  - destruct path as [|d path]; simpl.
    + intros [= <-]. simpl. by apply (Hu []).
    + intros Hf. by apply (Hu (d :: path)).
  - destruct path as [|d path]; simpl.
    + intros [= <-]. simpl. apply dict_set_keys_NoDup. by apply (Hu []).
    + destruct (decide (c = d)) as [<-|Hne].
      * rewrite dict_get_set_eq. apply IH.
        intros path' n'. destruct path' as [|e path']; simpl.
        -- intros [= <-]. simpl.
           destruct (Dict.get c (children node)) as [child|] eqn:Hg; simpl.
           ++ by apply (unique_children_child node c child Hu Hg []).
           ++ apply NoDup_nil_2.
        -- destruct (Dict.get c (children node)) as [child|] eqn:Hg; simpl.
           ++ intros Hf. by apply (unique_children_child node c child Hu Hg (e :: path')).
           ++ done.
      * rewrite dict_get_set_ne by done. intros Hf. by apply (Hu (d :: path)).
Qed.

Lemma reachable_unique_children self f :
  reachable self → unique_children (trie_of f self).
Proof.
  induction 1 as [|self anime _ IH|self i _ IH|self _ IH].
  - destruct f; apply unique_children_new_node.
  - destruct (add_anime_cases self anime) as [->|Hnone]; [done|].
    destruct (add_anime_fresh self anime Hnone) as [_ ->].
    generalize (indexed_keys f anime) as keys. intros keys.
    revert IH. generalize (trie_of f self) as root. intros root.
    revert root. induction keys as [|k keys IHk]; intros root Hu; [done|].
    simpl. apply IHk. by apply unique_children_add_chars.
  - unfold remove_anime. destruct (Dict.mem i (_anime_by_id self)); [|done].
    by destruct f.
  - destruct f; apply unique_children_new_node.
Qed.

Lemma collect_titles_from table max_suggestions ids acc (P : list Z → Prop) :
  (∀ i a, i ∈ ids → Dict.get i table = Some a → P (Anime.display_title a)) →
  (∀ t, t ∈ acc → P t) →
  ∀ t, t ∈ collect_titles table max_suggestions ids acc → P t.
Proof.
  revert acc. induction ids as [|i ids IH]; intros acc HP Hacc; [done|].
  simpl.
  assert (∀ j a, j ∈ ids → Dict.get j table = Some a →
                 P (Anime.display_title a)) as HP'.
  { intros j a Hj. apply HP. by apply list_elem_of_further. }
  destruct (Dict.get i table) as [a|] eqn:Hg; [|by apply IH].
  assert (∀ t, t ∈ ({[Anime.display_title a]} ∪ acc : gset (list Z)) → P t)
    as Hacc'.
  { intros t [->%elem_of_singleton|Ht]%elem_of_union; [|by apply Hacc].
    apply (HP i a); [apply list_elem_of_here | done]. }
  destruct (max_suggestions <=? _); [done | by apply IH].
Qed.

Lemma suggest_loop_from root table max_suggestions (P : list Z → Prop)
    (Q : list Z → Prop) :
  unique_children root →
  (∀ word c, Q word → Q (word ++ [c])) →
  (∀ word node i a, Q word → find_node root word = Some node →
     i ∈ anime_ids node → Dict.get i table = Some a →
     P (Anime.display_title a)) →
  ∀ fuel stack acc,
    (∀ node word, (node, word) ∈ stack →
                  find_node root word = Some node ∧ Q word) →
    (∀ t, t ∈ acc → P t) →
    ∀ t, t ∈ suggest_loop fuel table max_suggestions stack acc → P t.
Proof.
  intros Hu HQ HP. induction fuel as [|fuel IH]; intros stack acc Hst Hacc;
    [done|].
  simpl. destruct stack as [|[node word] stack]; [done|].
  destruct (_ <? max_suggestions); [|done].
  destruct (Hst node word) as [Hf Hq]; [apply list_elem_of_here|].
  apply IH.
  - intros n w [Hin|Hin]%elem_of_app.
    + apply elem_of_rev, list_elem_of_fmap in Hin as ([c child] & [= -> ->] & Hin).
      simpl. split; [|by apply HQ].
      rewrite (find_node_snoc root word c node Hf).
      apply dict_get_of_elem; [by apply (Hu word)|done].
    + apply Hst. by apply list_elem_of_further.
  - destruct (is_end_of_word node); [|done].
    apply collect_titles_from; [|done].
    intros i a Hi Hg. apply (HP word node i a); try done.
    by apply elem_of_elements.
Qed.

(** X20. Without removals, every suggestion is the display title of a stored
    record that has a title key beginning with the normalised prefix. *)
Theorem suggestions_match_the_prefix self (prefix : str) (max_suggestions : Z)
    (t : str) :
  built self →
  t ∈ get_suggestions self prefix max_suggestions →
  ∃ i a k, Dict.get i (_anime_by_id self) = Some a ∧
           Anime.display_title a = t ∧
           k ∈ indexed_keys TitleField a ∧
           _normalize_text prefix `prefix_of` k.
Proof.
  intros Hb. unfold get_suggestions.
  destruct (find_node (_root self) (_normalize_text prefix)) as [node|] eqn:Hf;
    [|by intros ?%elem_of_nil].
  rewrite sorted_Permutation, elem_of_elements.
  apply (suggest_loop_from (_root self) _ _
           (λ t, ∃ i a k, Dict.get i (_anime_by_id self) = Some a ∧
                          Anime.display_title a = t ∧
                          k ∈ indexed_keys TitleField a ∧
                          _normalize_text prefix `prefix_of` k)
           (λ word, _normalize_text prefix `prefix_of` word)).
  - apply (reachable_unique_children self TitleField). by apply built_reachable.
  - intros word c Hp. by apply prefix_app_r.
  - intros word n i a Hp Hfn Hi Hg.
    assert (i ∈ ids_at (trie_of TitleField self) word) as Hat
      by (unfold ids_at; simpl; by rewrite Hfn).
    apply (built_path_sets self Hb) in Hat as (a' & k & Hg' & Hk & Hc).
    assert (a' = a) as -> by congruence.
    exists i, a, k. split; [done|]. split; [done|]. split; [done|].
    destruct word as [|c word]; simpl in Hc.
    + subst k. by apply prefix_nil_inv in Hp as ->.
    + by etrans.
  - intros n w [= -> ->]%list_elem_of_singleton. done.
  - by intros t' ?%elem_of_empty.
Qed.
End SuggestionPrefixFacts.

(** ** The paths of the stored keys *)

Section MarkedPathFacts.
Context `{Unicodedata}.
Implicit Types (self : AnimeTrie) (node root child : TrieNode) (key path : str).

Lemma find_node_ids_add i node path n :
  find_node node path = Some n →
  ∃ n', find_node (ids_add i node) path = Some n' ∧
        is_end_of_word n' = is_end_of_word n.
Proof.
  destruct path as [|c path]; simpl.
  - intros [= <-]. by eexists.
  - intros Hf. by exists n.
Qed.

Lemma add_chars_keeps_nodes key : ∀ node i path n,
  find_node node path = Some n →
  ∃ n', find_node (add_chars node key i) path = Some n' ∧
        (is_end_of_word n = true → is_end_of_word n' = true).
Proof.
  induction key as [|c key IH]; intros node i path n Hf; simpl.
  - destruct path as [|d path]; simpl in *.
    + injection Hf as <-. by eexists.
    + by exists n.
  - destruct path as [|d path]; simpl in *.
    + injection Hf as <-. by eexists.
    + destruct (decide (c = d)) as [<-|Hne].
      * rewrite dict_get_set_eq.
        destruct (Dict.get c (children node)) as [child|]; [|done]. simpl.
        destruct (find_node_ids_add i child path n Hf) as (n1 & Hf1 & He1).
        destruct (IH (ids_add i child) i path n1 Hf1) as (n' & Hf' & He').
        exists n'. split; [done|]. intros He. apply He'. by rewrite He1.
      * rewrite dict_get_set_ne by done. by exists n.
Qed.

Lemma add_keys_marks (keys : list str) : ∀ root i,
  (∀ path n, find_node root path = Some n → is_end_of_word n = true →
     ∃ n', find_node (foldl (λ node k, add_chars node k i) root keys) path
             = Some n' ∧ is_end_of_word n' = true) ∧
  (∀ k, k ∈ keys →
     ∃ n', find_node (foldl (λ node k, add_chars node k i) root keys) k
             = Some n' ∧ is_end_of_word n' = true).
Proof.
  induction keys as [|k keys IH]; intros root i; simpl.
  - split; [by eauto|]. by intros k ?%elem_of_nil.
  - destruct (IH (add_chars root k i) i) as [Hkeep Hnew]. split.
    + intros path n Hf He.
      destruct (add_chars_keeps_nodes k root i path n Hf) as (n1 & Hf1 & He1).
      apply (Hkeep path n1 Hf1). by apply He1.
    + intros k' [->|Hin]%elem_of_cons; [|by apply Hnew].
      destruct (find_node_add_chars k root i) as (n1 & Hf1 & He1 & _).
      by apply (Hkeep k n1).
Qed.

Lemma built_keys_marked self f i a (k : str) :
  built self →
  Dict.get i (_anime_by_id self) = Some a →
  k ∈ indexed_keys f a →
  ∃ node, find_node (trie_of f self) k = Some node ∧
          is_end_of_word node = true ∧ i ∈ anime_ids node.
Proof.
  intros Hb Hg Hk.
  assert (∃ node, find_node (trie_of f self) k = Some node ∧
                  is_end_of_word node = true) as (node & Hf & He).
  { revert i a k Hg Hk.
    induction Hb as [|self anime Hb IH|self _ IH]; intros i a k Hg Hk;
      [done| |done].
    destruct (add_anime_cases self anime) as [Heq|Hnone].
    { rewrite Heq in Hg |- *. exact (IH i a k Hg Hk). }
    destruct (add_anime_fresh self anime Hnone) as [Htab Htrie].
    rewrite Htrie. rewrite Htab in Hg.
    destruct (add_keys_marks (indexed_keys f anime) (trie_of f self)
                (Anime.id anime)) as [Hkeep Hnew].
    destruct (decide (Anime.id anime = i)) as [<-|Hne].
    - rewrite dict_get_set_eq in Hg. injection Hg as <-. by apply Hnew.
    - rewrite dict_get_set_ne in Hg by done.
      destruct (IH i a k Hg Hk) as (n & Hf & He). by apply (Hkeep k n). }
  exists node. split; [done|]. split; [done|].
  assert (i ∈ ids_at (trie_of f self) k) as Hi.
  { apply (built_path_sets self Hb). exists a, k.
    split; [done|]. split; [done|]. apply covers_refl. }
  unfold ids_at in Hi. by rewrite Hf in Hi.
Qed.

(** X4. Without removals, every key indexed for a stored record has its path
    in the trie of its field; the node the path ends at is marked as the
    end of a word and holds the record's identifier. *)
Theorem stored_keys_have_marked_paths self f i a (k : str) :
  built self →
  Dict.get i (_anime_by_id self) = Some a →
  k ∈ indexed_keys f a →
  ∃ node, find_node (trie_of f self) k = Some node ∧
          is_end_of_word node = true ∧ i ∈ anime_ids node.
Proof. apply built_keys_marked. Qed.
End MarkedPathFacts.

(** ** Suggestions that are not cut short *)

Section SuggestionCompleteFacts.
Context `{Unicodedata}.
Implicit Types (self : AnimeTrie) (table : list (Z * Anime.t))
  (node root child : TrieNode) (acc : gset (list Z))
  (stack : list (TrieNode * list Z)).

Lemma dict_get_elem {A : Type} (d : list (Z * A)) k v :
  Dict.get k d = Some v → (k, v) ∈ d.
Proof.
  induction d as [|[k' v'] d IH]; simpl; [done|].
  destruct (Z.eqb_spec k' k) as [->|_].
  - intros [= ->]. apply list_elem_of_here.
  - intros Hg. apply list_elem_of_further. by apply IH.
Qed.

Lemma find_node_app root (p ext : str) d :
  find_node root (p ++ ext) = Some d →
  ∃ n, find_node root p = Some n ∧ find_node n ext = Some d.
Proof.
  revert root. induction p as [|c p IH]; intros root; simpl.
  - intros Hf. by exists root.
  - destruct (Dict.get c (children root)) as [child|]; [apply IH | done].
Qed.

Lemma collect_titles_complete table max_suggestions ids : ∀ acc,
  acc ⊆ collect_titles table max_suggestions ids acc ∧
  (Z.of_nat (size (collect_titles table max_suggestions ids acc))
     < max_suggestions →
   ∀ i a, i ∈ ids → Dict.get i table = Some a →
          Anime.display_title a ∈ collect_titles table max_suggestions ids acc).
Proof.
  induction ids as [|i ids IH]; intros acc; simpl.
  - split; [done|]. by intros _ i a ?%elem_of_nil.
  - destruct (Dict.get i table) as [b|] eqn:Hg.
    + destruct (Z.leb_spec max_suggestions
                  (Z.of_nat (size ({[Anime.display_title b]} ∪ acc))))
        as [Hle|Hgt].
      * split; [set_solver|]. lia.
      * destruct (IH ({[Anime.display_title b]} ∪ acc)) as [Hsub Hall].
        split; [set_solver|]. intros Hlt j a [->|Hj]%elem_of_cons Hgj.
        -- assert (b = a) as -> by congruence. set_solver.
        -- by apply (Hall Hlt j a).
    + destruct (IH acc) as [Hsub Hall]. split; [done|].
      intros Hlt j a [->|Hj]%elem_of_cons Hgj; [congruence|].
      by apply (Hall Hlt j a).
Qed.

Lemma suggest_loop_complete table max_suggestions : ∀ fuel stack acc,
  (stack_weight stack ≤ fuel)%nat →
  acc ⊆ suggest_loop fuel table max_suggestions stack acc ∧
  (Z.of_nat (size (suggest_loop fuel table max_suggestions stack acc))
     < max_suggestions →
   ∀ n w (ext : str) d i a,
     (n, w) ∈ stack → find_node n ext = Some d →
     is_end_of_word d = true → i ∈ anime_ids d →
     Dict.get i table = Some a →
     Anime.display_title a
       ∈ suggest_loop fuel table max_suggestions stack acc).
Proof.
  induction fuel as [|fuel IH]; intros stack acc Hw.
  - destruct stack as [|[node word] stack].
    + split; [done|]. by intros _ n w ext d i a ?%elem_of_nil.
    + rewrite stack_weight_cons in Hw. pose proof (node_count_pos node). lia.
  - destruct stack as [|[node word] stack].
    { split; [done|]. by intros _ n w ext d i a ?%elem_of_nil. }
    rewrite stack_weight_cons, (node_count_children node word) in Hw.
    simpl.
    destruct (Z.ltb_spec (Z.of_nat (size acc)) max_suggestions) as [Hlt|Hge];
      [|split; [done|lia]].
    set (acc1 := if is_end_of_word node
                 then collect_titles table max_suggestions
                        (elements (anime_ids node)) acc
                 else acc).
    set (pushed := (λ p : Z * TrieNode, (p.2, word ++ [p.1])) <$> children node).
    destruct (IH (rev pushed ++ stack) acc1) as [Hsub Hall].
    { rewrite stack_weight_app, stack_weight_rev. unfold pushed. lia. }
    assert (acc ⊆ acc1) as Hacc.
    { unfold acc1. destruct (is_end_of_word node); [|done].
      apply collect_titles_complete. }
    split; [set_solver|]. intros Hres n w ext d i a Hin Hf He Hi Hg.
    apply elem_of_cons in Hin as [[= -> ->]|Hin].
    + destruct ext as [|c ext]; simpl in Hf.
      * injection Hf as <-. apply Hsub. unfold acc1. rewrite He.
        apply (collect_titles_complete table max_suggestions
                 (elements (anime_ids node)) acc) with i;
          [|by apply elem_of_elements|done].
        assert (size acc1 ≤ size (suggest_loop fuel table max_suggestions
                                    (rev pushed ++ stack) acc1))%nat
          by by apply subseteq_size.
        unfold acc1 in *. rewrite He in *. lia.
      * destruct (Dict.get c (children node)) as [child|] eqn:Hc; [|done].
        apply (Hall Hres child (word ++ [c]) ext d i a); try done.
        apply elem_of_app. left. apply elem_of_rev.
        apply list_elem_of_fmap. exists (c, child).
        split; [done | by apply dict_get_elem].
    + apply (Hall Hres n w ext d i a); try done.
      apply elem_of_app. by right.
Qed.

(** X21. Without removals, when [get_suggestions] returns fewer titles than
    [max_suggestions], it has left none out: the display title of every
    stored record with a title key beginning with the normalised prefix
    is among them. *)
Theorem suggestions_are_complete self (prefix : str) (max_suggestions : Z)
    i a (k : str) :
  built self →
  Dict.get i (_anime_by_id self) = Some a →
  k ∈ indexed_keys TitleField a →
  _normalize_text prefix `prefix_of` k →
  Z.of_nat (length (get_suggestions self prefix max_suggestions))
    < max_suggestions →
  Anime.display_title a ∈ get_suggestions self prefix max_suggestions.
Proof.
  intros Hb Hg Hk [ext ->].
  destruct (built_keys_marked self TitleField i a _ Hb Hg Hk)
    as (d & Hf & He & Hi).
  destruct (find_node_app _ _ _ _ Hf) as (node & Hfn & Hfd).
  simpl in Hfn. unfold get_suggestions. rewrite Hfn.
  rewrite !sorted_Permutation. intros Hlen. apply elem_of_elements.
  destruct (suggest_loop_complete (_anime_by_id self) max_suggestions
              (node_count node) [(node, _normalize_text prefix)] ∅)
    as [_ Hall].
  { rewrite stack_weight_cons. unfold stack_weight. simpl. lia. }
  apply (Hall Hlen node (_normalize_text prefix) ext d i a); try done.
  apply list_elem_of_here.
Qed.
End SuggestionCompleteFacts.

(** ** The shape of a normalised text *)

Section ShapeFacts.
Context `{Unicodedata}.
Implicit Types (s : str) (c d : Z) (b : bool).

Lemma collapse_from_chars b s c :
  c ∈ collapse_from b s → c = SPACE ∨ (c ∈ s ∧ uni_isspace c = false).
Proof.
  revert b. induction s as [|x s IH]; intros b; simpl.
  - by intros ?%elem_of_nil.
  - destruct (uni_isspace x) eqn:E.
    + destruct b.
      * intros [?|[? ?]]%IH; [by left|right]. split; [by right|done].
      * intros [->|[?|[? ?]]%IH]%elem_of_cons; [by left|by left|right].
        split; [by right|done].
    + intros [->|[?|[? ?]]%IH]%elem_of_cons; [right|by left|right].
      * split; [by left|done].
      * split; [by right|done].
Qed.

Lemma collapse_true_head s :
  match collapse_from true s with
  | [] => True
  | c :: _ => uni_isspace c = false
  end.
Proof.
  induction s as [|x s IH]; [done|]. simpl.
  by destruct (uni_isspace x) eqn:E.
Qed.

Lemma collapse_from_no_run b s i c d :
  collapse_from b s !! i = Some c →
  collapse_from b s !! S i = Some d →
  uni_isspace c = true → uni_isspace d = false.
Proof.
  revert b i. induction s as [|x s IH]; intros b i; simpl; [done|].
  destruct (uni_isspace x) eqn:E.
  - destruct b; [apply IH|].
    destruct i as [|i]; simpl; [|apply IH].
    intros _ Hd _. pose proof (collapse_true_head s) as Hh.
    destruct (collapse_from true s) as [|y l]; simpl in *; [done|].
    by injection Hd as <-.
  - destruct i as [|i]; simpl; [|apply IH].
    intros [= <-] _ Hc. congruence.
Qed.

(** X23. A normalised text is made of word characters, hyphens and single
    spaces: every character is one the punctuation filter keeps, a
    whitespace character in it is the space, and no two whitespace
    characters stand side by side. *)
Theorem normalized_text_shape (text : str) :
  (∀ c, c ∈ _normalize_text text → kept c = true) ∧
  (∀ c, c ∈ _normalize_text text → uni_isspace c = true → c = SPACE) ∧
  (∀ i c d, _normalize_text text !! i = Some c →
            _normalize_text text !! S i = Some d →
            uni_isspace c = true → uni_isspace d = false).
Proof.
  unfold _normalize_text, collapse_spaces. split; [|split].
  - intros c [->|[Hin _]]%collapse_from_chars.
    + apply space_kept. apply uni_space_isspace.
    + unfold drop_punctuation in Hin. by apply list_elem_of_filter in Hin as [? _].
  - intros c [->|[_ Hns]]%collapse_from_chars; [done|congruence].
  - intros i c d. apply collapse_from_no_run.
Qed.
End ShapeFacts.

(** ** The validators of the configuration *)

Section ValidatorFacts.
Context `{Unicodedata}.

Lemma not_all_space_rstrip (s : str) :
  forallb uni_isspace s = false → forallb uni_isspace (rstrip s) = false.
Proof.
  induction s as [|c s IH]; [done|]. intros Ha. rewrite rstrip_cons, Ha.
  simpl in *. destruct (uni_isspace c); [|done]. simpl in *. by apply IH.
Qed.

Lemma rstrip_idempotent (s : str) : rstrip (rstrip s) = rstrip s.
Proof.
  induction s as [|c s IH]; [done|]. rewrite rstrip_cons.
  destruct (forallb uni_isspace (c :: s)) eqn:Ea; [done|].
  rewrite rstrip_cons, IH.
  pose proof (not_all_space_rstrip (c :: s) Ea) as Hn.
  rewrite rstrip_cons, Ea in Hn. by rewrite Hn.
Qed.

Lemma strip_idempotent (s : str) : strip (strip s) = strip s.
Proof.
  pose proof (strip_no_outer_space s) as Hn.
  assert (lstrip (strip s) = strip s) as Hl.
  { destruct (strip s) as [|c r]; [done|]. simpl in *.
    destruct Hn as [-> _]. done. }
  unfold strip at 1. rewrite Hl. unfold strip. apply rstrip_idempotent.
Qed.

Lemma lstrip_nil_iff (s : str) : lstrip s = [] ↔ forallb uni_isspace s = true.
Proof.
  induction s as [|c s IH]; [done|]. simpl.
  destruct (uni_isspace c); [done|]. simpl. split; done.
Qed.

Lemma strip_nil_iff (s : str) : strip s = [] ↔ forallb uni_isspace s = true.
Proof.
  unfold strip. rewrite rstrip_nil_iff. split.
  - intros Ha. pose proof (lstrip_head s) as Hh.
    destruct (lstrip s) as [|c r] eqn:El; [by apply lstrip_nil_iff|].
    simpl in Ha. by rewrite Hh in Ha.
  - intros Ha. apply lstrip_nil_iff in Ha. by rewrite Ha.
Qed.

(** X24. [validate_host] refuses exactly the blank values; what it accepts it
    returns trimmed, so not empty and with no whitespace at either end,
    and validating the returned value again returns it unchanged. *)
Theorem validate_host_trims (value : str) :
  ((∃ message, validate_host value = ValueError message) ↔
   forallb uni_isspace value = true) ∧
  (∀ host, validate_host value = Valid host →
     host = strip value ∧ host ≠ [] ∧ no_outer_space host ∧
     validate_host host = Valid host).
Proof.
  unfold validate_host. split.
  - rewrite <- strip_nil_iff. destruct (strip value); split; try done.
    + by eexists.
    + by intros [m ?].
  - intros host. destruct (strip value) as [|c r] eqn:E; [done|].
    intros [= <-]. split; [done|]. split; [done|].
    rewrite <- E. split; [apply strip_no_outer_space|].
    rewrite strip_idempotent. by rewrite E.
Qed.

Lemma Sorted_lt_unique (l1 l2 : list Z) :
  Sorted Z.lt l1 → Sorted Z.lt l2 → (∀ x, x ∈ l1 ↔ x ∈ l2) → l1 = l2.
Proof.
  intros H1%Sorted_StronglySorted H2%Sorted_StronglySorted;
    [|intros x y z; lia..].
  revert l2 H2. induction H1 as [|x1 t1 Hs1 IH Hall1]; intros l2 H2 Heq.
  - destruct l2 as [|x2 t2]; [done|].
    exfalso. apply (not_elem_of_nil x2). apply Heq, list_elem_of_here.
  - destruct H2 as [|x2 t2 Hs2 Hall2].
    { exfalso. apply (not_elem_of_nil x1). apply Heq, list_elem_of_here. }
    rewrite Forall_forall in Hall1, Hall2.
    assert (x1 = x2) as <-.
    { pose proof (proj1 (Heq x1) (list_elem_of_here _ _)) as Ha.
      pose proof (proj2 (Heq x2) (list_elem_of_here _ _)) as Hb.
      apply elem_of_cons in Ha as [?|Ha]; [done|].
      apply elem_of_cons in Hb as [?|Hb]; [done|].
      specialize (Hall1 _ Hb). specialize (Hall2 _ Ha). lia. }
    f_equal. apply IH; [done|]. intros y. split; intros Hy.
    + pose proof (proj1 (Heq y) (list_elem_of_further _ _ _ Hy)) as Ha.
      apply elem_of_cons in Ha as [->|Ha]; [|done].
      specialize (Hall1 _ Hy). lia.
    + pose proof (proj2 (Heq y) (list_elem_of_further _ _ _ Hy)) as Ha.
      apply elem_of_cons in Ha as [->|Ha]; [|done].
      specialize (Hall2 _ Hy). lia.
Qed.

(** X25. [validate_admin_ids] refuses exactly the lists that hold an
    identifier that is zero or negative; what it accepts it returns as
    the same identifiers in strictly ascending order, each once, and
    validating the returned list again returns it unchanged. *)
Theorem validate_admin_ids_sorts (value : list Z) :
  ((∃ message, validate_admin_ids value = ValueError message) ↔
   ∃ x, x ∈ value ∧ x ≤ 0) ∧
  (∀ ids, validate_admin_ids value = Valid ids →
     Sorted Z.lt ids ∧ (∀ x, x ∈ ids ↔ x ∈ value) ∧
     (∀ x, x ∈ ids → 0 < x) ∧
     validate_admin_ids ids = Valid ids).
Proof.
  unfold validate_admin_ids.
  destruct (existsb (λ admin_id, admin_id <=? 0) value) eqn:E.
  - apply existsb_exists in E as (x & Hx%list_elem_of_In & Hle%Z.leb_le).
    split; [|done]. split; [by exists x | by eexists].
  - assert (∀ x, x ∈ value → 0 < x) as Hpos.
    { intros x Hx. destruct (Z.leb_spec x 0) as [Hle|]; [|done].
      assert (existsb (λ admin_id, admin_id <=? 0) value = true); [|congruence].
      apply existsb_exists. exists x. split; [by apply list_elem_of_In|].
      by apply Z.leb_le. }
    split.
    { split; [by intros [m ?]|]. intros (x & Hx & Hle).
      specialize (Hpos x Hx). lia. }
    intros ids [= <-].
    assert (∀ x, x ∈ sorted Z.leb (elements (list_to_set value : gset Z))
                 ↔ x ∈ value) as Hel.
    { intros x. by rewrite sorted_Permutation, elem_of_elements,
        elem_of_list_to_set. }
    pose proof (sorted_ids_strict (list_to_set value)) as Hs.
    unfold sorted_ids in Hs.
    split; [done|]. split; [done|]. split; [intros x ?%Hel; by apply Hpos|].
    assert (existsb (λ admin_id, admin_id <=? 0)
              (sorted Z.leb (elements (list_to_set value : gset Z))) = false)
      as ->.
    { apply not_true_is_false. intros E'.
      apply existsb_exists in E' as (x & Hx%list_elem_of_In%Hel & Hle%Z.leb_le).
      specialize (Hpos x Hx). lia. }
    f_equal. apply Sorted_lt_unique; [|done|].
    + apply (sorted_ids_strict (list_to_set _)).
    + intros x. by rewrite sorted_Permutation, elem_of_elements,
        elem_of_list_to_set.
Qed.
End ValidatorFacts.

(** ** The further properties at the sample records *)

Section FurtherWitnesses.
Import Fragment.

Lemma stored_keys_have_marked_paths_witness :
  ∃ node, find_node (trie_of TitleField (add_anime new_index Samples.naruto))
            (py "naruto") = Some node ∧
          is_end_of_word node = true ∧ 1 ∈ anime_ids node.
Proof.
  apply (stored_keys_have_marked_paths (add_anime new_index Samples.naruto)
           TitleField 1 Samples.naruto (py "naruto")).
  - apply built_add, built_new.
  - reflexivity.
  - assert (indexed_keys TitleField Samples.naruto = [py "naruto"]) as ->
      by (vm_compute; reflexivity).
    apply list_elem_of_here.
Defined.

Lemma add_anime_changes_own_prefixes_witness :
  1 ∈ _search_in_trie
        (trie_of TitleField (add_anime new_index Samples.naruto)) (py "na") ↔
  1 ∈ _search_in_trie (trie_of TitleField new_index) (py "na") ∨
  (1 = Anime.id Samples.naruto ∧
   ∃ k, k ∈ indexed_keys TitleField Samples.naruto ∧
        covers (_normalize_text (py "na")) k).
Proof.
  apply (add_anime_changes_own_prefixes new_index Samples.naruto TitleField
           (py "na")).
  reflexivity.
Defined.

Lemma searches_return_the_matching_records_witness :
  ∃ r, search_by_title (add_anime new_index Samples.titan) (py "att") None
         = Ok r ∧
       ∀ a, a ∈ r ↔
            Dict.get (Anime.id a)
              (_anime_by_id (add_anime new_index Samples.titan)) = Some a ∧
            ∃ k, k ∈ indexed_keys TitleField a ∧
                 covers (_normalize_text (py "att")) k.
Proof.
  apply (searches_return_the_matching_records
           (add_anime new_index Samples.titan) (py "att")).
  apply built_add, built_new.
Defined.

Lemma added_record_is_found_witness :
  let added :=
    add_anime (add_anime new_index Samples.titan) Samples.spirited in
  Anime.display_title Samples.spirited = py "Spirited Away" ∧
  (∃ r, search_by_title added (py "Spirited Away") None = Ok r ∧
        Samples.spirited ∈ r) ∧
  (∃ r, search_by_title added (Anime.title Samples.spirited) None = Ok r ∧
        Samples.spirited ∈ r) ∧
  (∃ r, search_by_genre added (py "Fantasy") = Ok r ∧ Samples.spirited ∈ r) ∧
  (∃ r, search_by_studio added (py "Ghibli") = Ok r ∧ Samples.spirited ∈ r).
Proof.
  intros added.
  assert (built (add_anime new_index Samples.titan)) as Hb
    by apply built_add, built_new.
  destruct (added_record_is_found _ Samples.spirited Hb)
    as (Ht & Hg & Hs); [reflexivity|].
  split; [reflexivity|]. split; [|split; [|split]].
  - apply Ht; [right; left; reflexivity | reflexivity].
  - apply Ht; [left; reflexivity | reflexivity].
  - apply (Hg (Genre.mk 3 (py "Fantasy"))). apply list_elem_of_here.
  - apply (Hs (AnimeStudio.mk 2 (py "Ghibli"))). apply list_elem_of_here.
Defined.

Lemma search_results_are_live_and_ordered_witness :
  live_and_ordered
    (add_anime (add_anime new_index Samples.titan) Samples.tokyo)
    (_search_in_trie
       (_root (add_anime (add_anime new_index Samples.titan) Samples.tokyo))
       (py "attack")) [Samples.titan].
Proof.
  destruct (search_results_are_live_and_ordered
              (add_anime (add_anime new_index Samples.titan) Samples.tokyo)
              (py "attack") None None None (Some 1)) as [Htitle _].
  - apply reachable_add, reachable_add, reachable_new.
  - apply Htitle. vm_compute. reflexivity.
Defined.

Lemma search_raises_at_first_stale_id_witness :
  first_stale (remove_anime (add_anime new_index Samples.titan) 1).2
    (_search_in_trie
       (_root (remove_anime (add_anime new_index Samples.titan) 1).2)
       (py "attack")) 1.
Proof.
  destruct (search_raises_at_first_stale_id
              (remove_anime (add_anime new_index Samples.titan) 1).2
              (py "attack") None None None None 1) as [Htitle _].
  apply Htitle. vm_compute. reflexivity.
Defined.

Lemma limit_keeps_a_prefix_witness :
  ∃ full, search_by_title
            (add_anime (add_anime new_index Samples.titan) Samples.tokyo)
            (py "attack") None = Ok full ∧
          [Samples.titan] `prefix_of` full ∧
          length [Samples.titan] = limited_length (Some 1) (length full).
Proof.
  apply (limit_keeps_a_prefix
           (add_anime (add_anime new_index Samples.titan) Samples.tokyo)
           (py "attack") None None None (Some 1) [Samples.titan]).
  vm_compute. reflexivity.
Defined.

Lemma removal_spares_other_searches_witness :
  search_by_title
    (remove_anime (add_anime (add_anime new_index Samples.titan) Samples.tokyo) 1).2
    (py "attack on to") None =
  search_by_title
    (add_anime (add_anime new_index Samples.titan) Samples.tokyo)
    (py "attack on to") None.
Proof.
  apply (removal_spares_other_searches
           (add_anime (add_anime new_index Samples.titan) Samples.tokyo) 1
           (py "attack on to") None).
  apply (bool_decide_unpack _). vm_compute. reflexivity.
Defined.

Lemma advanced_search_single_field_witness :
  advanced_search (add_anime new_index Samples.titan) (Some (py "att"))
                  None None (Some 3) =
  search_by_title (add_anime new_index Samples.titan) (py "att") (Some 3).
Proof.
  apply (advanced_search_single_field (add_anime new_index Samples.titan)
           (py "att") None None None (Some 3)).
  discriminate.
Defined.

Lemma suggestions_are_live_titles_witness :
  ∃ i a, Dict.get i (_anime_by_id
                       (remove_anime
                          (add_anime (add_anime new_index Samples.titan)
                                     Samples.tokyo) 1).2) = Some a ∧
         Anime.display_title a = py "Attack on Tokyo".
Proof.
  apply (suggestions_are_live_titles
           (remove_anime (add_anime (add_anime new_index Samples.titan)
                                    Samples.tokyo) 1).2
           (py "att") 10 (py "Attack on Tokyo")).
  assert (get_suggestions
            (remove_anime (add_anime (add_anime new_index Samples.titan)
                                     Samples.tokyo) 1).2
            (py "att") 10 = [py "Attack on Tokyo"]) as ->
    by (vm_compute; reflexivity).
  apply list_elem_of_here.
Defined.

Lemma suggestions_match_the_prefix_witness :
  ∃ i a k, Dict.get i (_anime_by_id (add_anime new_index Samples.naruto))
             = Some a ∧
           Anime.display_title a = py "Naruto" ∧
           k ∈ indexed_keys TitleField a ∧
           _normalize_text (py "Na") `prefix_of` k.
Proof.
  apply (suggestions_match_the_prefix (add_anime new_index Samples.naruto)
           (py "Na") 10 (py "Naruto")).
  - apply built_add, built_new.
  - assert (get_suggestions (add_anime new_index Samples.naruto) (py "Na") 10
            = [py "Naruto"]) as -> by (vm_compute; reflexivity).
    apply list_elem_of_here.
Defined.

Lemma suggestions_are_complete_witness :
  Anime.display_title Samples.naruto
    ∈ get_suggestions (add_anime new_index Samples.naruto) (py "Na") 10.
Proof.
  apply (suggestions_are_complete (add_anime new_index Samples.naruto)
           (py "Na") 10 1 Samples.naruto (py "naruto")).
  - apply built_add, built_new.
  - reflexivity.
  - assert (indexed_keys TitleField Samples.naruto = [py "naruto"]) as ->
      by (vm_compute; reflexivity).
    apply list_elem_of_here.
  - exists (py "ruto"). vm_compute. reflexivity.
  - vm_compute. reflexivity.
Defined.

Lemma get_suggestions_fuel_independent_witness :
  ∃ node,
    find_node (_root (add_anime new_index Samples.naruto))
              (_normalize_text (py "Na")) = Some node ∧
    get_suggestions (add_anime new_index Samples.naruto) (py "Na") 10 =
      sorted str_le
        (elements
           (suggest_loop (node_count node + 7)
              (_anime_by_id (add_anime new_index Samples.naruto)) 10
              [(node, _normalize_text (py "Na"))] ∅)).
Proof.
  destruct (find_node (_root (add_anime new_index Samples.naruto))
              (_normalize_text (py "Na"))) as [node|] eqn:Hf.
  - exists node. split; [reflexivity|].
    exact (get_suggestions_fuel_independent
             (add_anime new_index Samples.naruto) (py "Na") 10 node 7 Hf).
  - vm_compute in Hf. discriminate Hf.
Defined.
End FurtherWitnesses.
